(** * Gaussian mixture EM for matrix completion

    A shallow embedding of [Customer_Review_Prediction.ipynb]: the
    E-step ([estep]), the M-step ([mstep]), the convergence loop ([run])
    and the imputation ([fill_matrix]), with the initialization ([init]),
    the error measure ([rmse]), the driver ([evaluate]) and the loop of
    [plot] that draws the arcs.

    numpy's float64 arrays are read as lists of real numbers: every
    statement below is about the arithmetic of the reals, where a sum does
    not depend on the order of its terms and nothing rounds, overflows or
    becomes NaN.  Integer arrays ([non_null], [rated]) are lists over [Z].
    The functions are total on lists; where numpy would raise on arrays
    whose shapes do not fit, theorems carry the shapes as hypotheses. *)

From Stdlib Require Import String.
From Stdlib Require Import Reals Lra Lia List ZArith Bool Arith.
Import ListNotations.
Open Scope R_scope.

(** ** Arrays *)

Definition vec := list R.
Definition matrix := list (list R).

(** [X.shape[0]] and [X.shape[1]]. *)
Definition nrows (M : matrix) : nat := length M.
Definition ncols (M : matrix) : nat := length (hd [] M).

(** [np.sum] of a one-dimensional array, and of a whole matrix. *)
Definition Rsum (l : vec) : R := fold_right Rplus 0 l.
Definition Rsum2 (M : matrix) : R := Rsum (map Rsum M).

(** Sum of [F 0 .. F (n-1)]. *)
Definition bigsum (n : nat) (F : nat -> R) : R := Rsum (map F (seq 0 n)).

(** Elementwise operation on two arrays of the same length. *)
Fixpoint map2 {A B C : Type} (f : A -> B -> C) (l1 : list A) (l2 : list B)
  : list C :=
  match l1, l2 with
  | a :: t1, b :: t2 => f a b :: map2 f t1 t2
  | _, _ => []
  end.

(** [M[:, j]]. *)
Definition col (j : nat) (M : matrix) : vec := map (fun row => nth j row 0) M.

(** [M[i, j]]. *)
Definition entry (M : matrix) (i j : nat) : R := nth j (nth i M []) 0.

(** [f] applied with the position of each element, counting from [k]. *)
Fixpoint mapi_from {A B : Type} (k : nat) (f : nat -> A -> B) (l : list A)
  : list B :=
  match l with
  | [] => []
  | a :: t => f k a :: mapi_from (S k) f t
  end.

Definition mapi {A B : Type} (f : nat -> A -> B) (l : list A) : list B :=
  mapi_from 0 f l.

(** [np.max] of a one-dimensional array ([0] stands in for the empty one,
    where numpy raises). *)
Definition Rmax_list (l : vec) : R :=
  match l with
  | [] => 0
  | a :: t => fold_left Rmax t a
  end.

(** [scipy.special.logsumexp] along one row: the maximum is subtracted
    before exponentiating and added back after the logarithm. *)
Definition logsumexp (l : vec) : R :=
  let a_max := Rmax_list l in
  ln (Rsum (map (fun a => exp (a - a_max)) l)) + a_max.

(** ** The mixture *)

Record GaussianMixture : Type := mkGaussianMixture {
  mu : matrix;   (* (K, d): each row is a component mean *)
  var : vec;     (* (K, ): the variance of each component *)
  p : vec        (* (K, ): the weight of each component *)
}.

Definition matrix_shape (n d : nat) (M : matrix) : Prop :=
  length M = n /\ Forall (fun r => length r = d) M.

Definition mixture_shape (K d : nat) (m : GaussianMixture) : Prop :=
  matrix_shape K d (mu m) /\ length (var m) = K /\ length (p m) = K.

(** The invariant of a Mixture State: weights form a distribution and
    variances are positive. *)
Definition mixture_ok (K d : nat) (m : GaussianMixture) : Prop :=
  mixture_shape K d m /\
  Rsum (p m) = 1 /\ Forall (fun w => 0 <= w) (p m) /\
  Forall (fun v => 0 < v) (var m).

(** ** E-step *)

(** [(X != 0).astype(int)] on one row. *)
Definition non_null_row (x : vec) : list Z :=
  map (fun v => if Req_dec_T v 0 then 0%Z else 1%Z) x.

(** [np.sum(non_null, axis=1)] on one row. *)
Definition rated_row (x : vec) : Z := fold_right Z.add 0%Z (non_null_row x).

(** [np.sum((X[i] - non_null[i] * mu[k]) ** 2)]. *)
Definition norm_entry (x : vec) (m : vec) : R :=
  Rsum (map2 (fun xv nm => (xv - nm) ^ 2) x
             (map2 (fun b mv => IZR b * mv) (non_null_row x) m)).

(** One cell of [f], built in the three assignments of the source. *)
Definition f_entry (x : vec) (m : vec) (v pk : R) : R :=
  let norm := norm_entry x m in
  let norm2 := - norm / (v * 2) in
  let f := norm2 - (IZR (rated_row x) / 2) * (ln (2 * PI) + ln v) in
  f + ln (pk + 1e-16).

(** Row [i] of [f]: one cell per component, the three arrays of the
    mixture read side by side (broadcasting over [K]). *)
Fixpoint f_cells (x : vec) (mus : matrix) (vars ps : vec) : vec :=
  match mus, vars, ps with
  | m :: mus', v :: vars', pk :: ps' =>
      f_entry x m v pk :: f_cells x mus' vars' ps'
  | _, _, _ => []
  end.

Definition f_row (x : vec) (mixture : GaussianMixture) : vec :=
  f_cells x (mu mixture) (var mixture) (p mixture).

Definition f_matrix (X : matrix) (mixture : GaussianMixture) : matrix :=
  map (fun x => f_row x mixture) X.

(** [f - logsumexp(f, axis=1, keepdims=True)] on one row. *)
Definition log_post_row (fr : vec) : vec :=
  let l := logsumexp fr in map (fun v => v - l) fr.

(** [np.exp(log_post)] on one row. *)
Definition post_row (fr : vec) : vec := map exp (log_post_row fr).

Definition estep (X : matrix) (mixture : GaussianMixture) : matrix * R :=
  let f := f_matrix X mixture in
  let f_max := map Rmax_list f in
  let log_post := map log_post_row f in
  let post := map (map exp) log_post in
  let log_likelihood :=
    Rsum2 (map2 (map2 Rmult) post (map2 (map2 Rminus) f log_post)) in
  (post, log_likelihood).

(** ** M-step *)

(** [X2 = np.copy(X); X2[X2 != 0] = 1]. *)
Definition X2_of (X : matrix) : matrix :=
  map (map (fun v => if Req_dec_T v 0 then v else 1)) X.

(** [np.multiply(X2[:, i].T, np.matrix(post[:, k])).T.sum(axis=0)]. *)
Definition mean_den (X2 post : matrix) (k i : nat) : R :=
  Rsum (map2 Rmult (col i X2) (col k post)).

(** [np.multiply(X[:, i].T, np.matrix(post[:, k])).T.sum(axis=0)]. *)
Definition mean_num (X post : matrix) (k i : nat) : R :=
  Rsum (map2 Rmult (col i X) (col k post)).

(** The body of the two nested loops over [k] and [i]. *)
Definition mu_h_cell (X post : matrix) (k i : nat) (old : R) : R :=
  if Rge_dec (mean_den (X2_of X) post k i) 1
  then mean_num X post k i / mean_den (X2_of X) post k i
  else old.

(** [mu_h] starts as zeros of the shape of [mixture.mu]; the loops assign
    the cells with [k < K] and [i < X.shape[1]]. *)
Definition mu_hat (X post : matrix) (mixture : GaussianMixture) : matrix :=
  let K := ncols post in
  mapi (fun k row =>
          mapi (fun i old =>
                  if (k <? K)%nat && (i <? ncols X)%nat
                  then mu_h_cell X post k i old
                  else 0) row)
       (mu mixture).

(** [post.sum(axis=0) / post.shape[0]]. *)
Definition p_hat (post : matrix) : vec :=
  map (fun k => Rsum (col k post) / INR (nrows post)) (seq 0 (ncols post)).

(** [np.power((X - mu_h[k]) * X2, 2).sum(axis=1)]. *)
Definition sq_resid (X : matrix) (mk : vec) : vec :=
  map2 (fun x x2 =>
          Rsum (map (fun t => t ^ 2) (map2 Rmult (map2 Rminus x mk) x2)))
       X (X2_of X).

(** [(post[:, k] * np.power(...).sum(axis=1)).sum(axis=0)]. *)
Definition var_num (X post : matrix) (mk : vec) (k : nat) : R :=
  Rsum (map2 Rmult (col k post) (sq_resid X mk)).

(** [((np.matrix(post[:, k]) * X2).sum(axis=1)).sum(axis=0)]: the matrix
    product of the row [post[:, k]] with [X2], summed over its columns. *)
Definition var_den (X post : matrix) (k : nat) : R :=
  Rsum (map (fun j => Rsum (map2 Rmult (col k post) (col j (X2_of X))))
            (seq 0 (ncols (X2_of X)))).

Definition var_h_cell (X post : matrix) (mk : vec) (k : nat)
  (min_variance : R) : R :=
  let pv := var_num X post mk k / var_den X post k in
  if Rge_dec pv min_variance then pv else min_variance.

(** [var_h] starts as zeros of the shape of [mixture.var]. *)
Definition var_hat (X post mu_h : matrix) (mixture : GaussianMixture)
  (min_variance : R) : vec :=
  let K := ncols post in
  mapi (fun k _ =>
          if (k <? K)%nat
          then var_h_cell X post (nth k mu_h []) k min_variance
          else 0)
       (var mixture).

Definition mstep (X post : matrix) (mixture : GaussianMixture)
  (min_variance : R) : GaussianMixture :=
  let mu_h := mu_hat X post mixture in
  let p := p_hat post in
  let var_h := var_hat X post mu_h mixture min_variance in
  mkGaussianMixture mu_h var_h p.

(** The default of the keyword argument. *)
Definition default_min_variance : R := 0.25.

(** ** The convergence loop *)

(** The variables of [run] between two passes of [while True]; the
    global [prev_cost] is part of the state ([None]: not bound yet), and
    [cost] starts as [None]. *)
Record loop_state : Type := mkLoop {
  ls_i : nat;
  ls_mixture : GaussianMixture;
  ls_post : matrix;
  ls_cost : option R;
  ls_prev_cost : option R
}.

Inductive outcome : Type :=
| Continue (s : loop_state)
| Break (s : loop_state) (cost : R)
| Raise.

(** One pass through the body of the loop.  Subtracting an unbound or
    [None] [prev_cost] raises. *)
Definition run_body (X : matrix) (s : loop_state) : outcome :=
  let prev_cost := if (0 <? ls_i s)%nat then ls_cost s else ls_prev_cost s in
  let '(post, cost) := estep X (ls_mixture s) in
  let mixture := mstep X post (ls_mixture s) default_min_variance in
  let s' := mkLoop (ls_i s) mixture post (Some cost) prev_cost in
  if (0 <? ls_i s)%nat then
    match prev_cost with
    | Some pc =>
        if Rle_dec (cost - pc) (1e-6 * Rabs cost)
        then Break s' cost
        else Continue (mkLoop (S (ls_i s)) mixture post (Some cost) prev_cost)
    | None => Raise
    end
  else Continue (mkLoop (S (ls_i s)) mixture post (Some cost) prev_cost).

(** The loop has no bound in the source; [fuel] bounds the number of
    passes, and [None] means the loop has not stopped within them. *)
Fixpoint run_loop (fuel : nat) (X : matrix) (s : loop_state)
  : option (loop_state * R) :=
  match fuel with
  | O => None
  | S fuel' =>
      match run_body X s with
      | Continue s' => run_loop fuel' X s'
      | Break s' cost => Some (s', cost)
      | Raise => None
      end
  end.

(** [run(X, mixture, post)], entered with the global [prev_cost] at [g]. *)
Definition run (fuel : nat) (g : option R) (X : matrix)
  (mixture : GaussianMixture) (post : matrix)
  : option (GaussianMixture * matrix * R) :=
  match run_loop fuel X (mkLoop 0 mixture post None g) with
  | Some (s, cost) => Some (ls_mixture s, ls_post s, cost)
  | None => None
  end.

(** One E-step followed by one M-step, and the mixture and the cost of
    the [i]-th pass of the loop. *)
Definition em_step (X : matrix) (mixture : GaussianMixture) : GaussianMixture :=
  mstep X (fst (estep X mixture)) mixture default_min_variance.

Definition mixture_at (X : matrix) (mixture : GaussianMixture) (i : nat)
  : GaussianMixture :=
  Nat.iter i (em_step X) mixture.

Definition cost_at (X : matrix) (mixture : GaussianMixture) (i : nat) : R :=
  snd (estep X (mixture_at X mixture i)).

(** ** Imputation *)

(** Arrays live in a store and are named by their position in it; a name
    outside the store reads as the empty array. *)
Definition ref := nat.
Definition heap := list matrix.

Definition deref (h : heap) (r : ref) : matrix := nth r h [].

(** The [n]-th element replaced by its image under [f].  Out of range
    numpy raises [IndexError]; here the list is returned as it is, and the
    positions written by [fill_matrix] come from [np.where], in range. *)
Fixpoint upd {A : Type} (n : nat) (f : A -> A) (l : list A) : list A :=
  match l, n with
  | [], _ => []
  | a :: t, O => f a :: t
  | a :: t, S n' => a :: upd n' f t
  end.

(** [np.copy]: a new array with the same contents. *)
Definition np_copy (h : heap) (r : ref) : heap * ref :=
  (h ++ [deref h r], length h).

(** [a[i, j] = v] on the array named [r]. *)
Definition setitem (h : heap) (r : ref) (i j : nat) (v : R) : heap :=
  upd r (upd i (upd j (fun _ => v))) h.

(** The cell at [ij] overwritten with [v ij]. *)
Definition write_cell (v : nat * nat -> R) (M : matrix) (ij : nat * nat)
  : matrix :=
  upd (fst ij) (upd (snd ij) (fun _ => v ij)) M.

Definition is_zero (v : R) : bool := if Req_dec_T v 0 then true else false.

(** The pairs zipped from [np.where(X == 0)]: the positions of the zero
    cells, row by row. *)
Definition where_zero (X : matrix) : list (nat * nat) :=
  concat (mapi (fun i row =>
                  map (fun j => (i, j))
                      (filter (fun j => is_zero (nth j row 0))
                              (seq 0 (length row))))
               X).

(** [np.sum(post[i] * mu[:, j])]. *)
Definition fill_value (post : matrix) (mixture : GaussianMixture)
  (i j : nat) : R :=
  Rsum (map2 Rmult (nth i post []) (col j (mu mixture))).

(** [fill_matrix] on the store: [X] is read through [x], the result is
    written into the copy. *)
Definition fill_matrix_h (h : heap) (x : ref) (mixture : GaussianMixture)
  : heap * ref :=
  let X := deref h x in
  let '(h1, output) := np_copy h x in
  let f := f_matrix X mixture in
  let f_max := map Rmax_list f in
  let log_post := map log_post_row f in
  let post := map (map exp) log_post in
  let h2 :=
    fold_left (fun hh ij =>
                 setitem hh output (fst ij) (snd ij)
                         (fill_value post mixture (fst ij) (snd ij)))
              (where_zero X) h1 in
  (h2, output).

(** The returned array, for [X] alone in the store. *)
Definition fill_matrix (X : matrix) (mixture : GaussianMixture) : matrix :=
  let '(h, output) := fill_matrix_h [X] 0%nat mixture in deref h output.

(** ** Observed dimensions *)

Definition observed (x : vec) (j : nat) : bool := negb (is_zero (nth j x 0)).

(** The observed dimensions of a row of length [d]. *)
Definition obs_dims (x : vec) (d : nat) : list nat :=
  filter (observed x) (seq 0 d).

(** The squared distance over the observed dimensions only. *)
Definition dist_obs (x m : vec) (d : nat) : R :=
  Rsum (map (fun j => (nth j x 0 - nth j m 0) ^ 2) (obs_dims x d)).

(** [observed[i, j]] as a number. *)
Definition obs_ind (X : matrix) (i j : nat) : R :=
  if is_zero (entry X i j) then 0 else 1.

(** The test of the loop at pass [i]: [cost - prev_cost <= 1e-6 * |cost|]. *)
Definition improvement_small (X : matrix) (mixture : GaussianMixture)
  (i : nat) : Prop :=
  cost_at X mixture i - cost_at X mixture (i - 1)
  <= 1e-6 * Rabs (cost_at X mixture i).

(** What the loop knows at the start of pass [i]. *)
Definition loop_inv (X : matrix) (mixture : GaussianMixture) (i : nat)
  (s : loop_state) : Prop :=
  ls_i s = i /\
  ls_mixture s = mixture_at X mixture i /\
  ((0 < i)%nat -> ls_cost s = Some (cost_at X mixture (i - 1))).

(** ** The E-step and M-step on index functions

    The quantities of the EM argument, over cells [x i j], observation
    indicators [o i j], responsibilities [w i k], means [m k j],
    variances [v k] and weights [q k]. *)

(** The squared distance of row [i] to mean [k] over observed cells. *)
Definition sqdist (d : nat) (o x m : nat -> nat -> R) (i k : nat) : R :=
  bigsum d (fun j => o i j * (x i j - m k j) ^ 2).

(** The number of observed cells of row [i]. *)
Definition nobs (d : nat) (o : nat -> nat -> R) (i : nat) : R :=
  bigsum d (fun j => o i j).

(** The cell [f(i,k)] of the E-step. *)
Definition logdens (d : nat) (o x m : nat -> nat -> R) (v q : nat -> R)
  (i k : nat) : R :=
  - sqdist d o x m i k / (2 * v k)
  - (nobs d o i / 2) * (ln (2 * PI) + ln (v k))
  + ln (q k + 1e-16).

(** The log-likelihood: the sum over the rows of the log-normalizers. *)
Definition loglik (n K : nat) (F : nat -> nat -> R) : R :=
  bigsum n (fun i => ln (bigsum K (fun k => exp (F i k)))).

(** The softmax of row [i] of [F]. *)
Definition softmax (K : nat) (F : nat -> nat -> R) (i k : nat) : R :=
  exp (F i k) / bigsum K (fun k' => exp (F i k')).

(** [var[k]] and [p[k]] of a mixture. *)
Definition var_at (mixture : GaussianMixture) (k : nat) : R :=
  nth k (var mixture) 0.
Definition p_at (mixture : GaussianMixture) (k : nat) : R :=
  nth k (p mixture) 0.

(** The cell [f(i,k)] of the E-step on [X] at [mixture], by index. *)
Definition f_at (d : nat) (X : matrix) (mixture : GaussianMixture)
  (i k : nat) : R :=
  logdens d (obs_ind X) (entry X) (entry (mu mixture)) (var_at mixture)
          (p_at mixture) i k.

(** What the loop maintains from its second pass on. *)
Definition above_floor (mixture : GaussianMixture) : Prop :=
  Forall (fun t => default_min_variance <= t) (var mixture).

(** The sums of the M-step for component [k]: the weighted squared
    distance to the means [mm], the weighted number of observed cells and
    the total weight. *)
Definition wsum_sqdist (n d : nat) (o x w mm : nat -> nat -> R) (k : nat)
  : R :=
  bigsum n (fun i => w i k * sqdist d o x mm i k).
Definition wsum_nobs (n d : nat) (o w : nat -> nat -> R) (k : nat) : R :=
  bigsum n (fun i => w i k * nobs d o i).
Definition wsum (n : nat) (w : nat -> nat -> R) (k : nat) : R :=
  bigsum n (fun i => w i k).

(** ** Initialization, error measure and driver *)

(** [((X - m) ** 2).mean()]: the mean over all the cells of [X]. *)
Definition sq_dev_mean (X : matrix) (m : vec) : R :=
  Rsum2 (map (fun x => map (fun t => t ^ 2) (map2 Rminus x m)) X)
  / INR (nrows X * ncols X).

(** [init(X, K, seed)].  [choice seed n K] stands for the draw
    [np.random.choice(n, K, replace=False)] made after
    [np.random.seed(seed)]; numpy raises [ValueError] when [K > n], which
    is [None] here. *)
Definition init (choice : nat -> nat -> nat -> list nat) (X : matrix)
  (K seed : nat) : option (GaussianMixture * matrix) :=
  let n := nrows X in
  let p := map (fun one => one / INR K) (repeat 1 K) in
  if (K <=? n)%nat then
    let mu := map (fun r => nth r X []) (choice seed n K) in
    let var := map (fun j => sq_dev_mean X (nth j mu [])) (seq 0 K) in
    let mixture := mkGaussianMixture mu var p in
    let post := map (map (fun one => one / INR K)) (repeat (repeat 1 K) n) in
    Some (mixture, post)
  else None.

(** What the draw of [np.random.choice(n, K, replace=False)] satisfies. *)
Definition choice_ok (choice : nat -> nat -> nat -> list nat) : Prop :=
  forall seed n K, (K <= n)%nat ->
    length (choice seed n K) = K /\
    Forall (fun r => (r < n)%nat) (choice seed n K) /\
    NoDup (choice seed n K).

(** [rmse(X, Y) = np.sqrt(np.mean((X - Y)**2))]. *)
Definition rmse (X Y : matrix) : R :=
  sqrt (Rsum2 (map2 (fun x y => map (fun t => t ^ 2) (map2 Rminus x y)) X Y)
        / INR (nrows X * ncols X)).




(** Every cell of [M] lies in [[lo, hi]]. *)
Definition cells_in (lo hi : R) (M : matrix) : Prop :=
  Forall (Forall (fun t => lo <= t <= hi)) M.


(** ** Plotting *)

(** The arguments of one call [Arc(point, r, r, 0, theta, theta + offset,
    edgecolor=color[j])]. *)
Record arc : Type := mkArc {
  arc_xy : vec;
  arc_width : R;
  arc_height : R;
  arc_angle : R;
  arc_theta1 : R;
  arc_theta2 : R;
  arc_edgecolor : string
}.

Definition color : list string :=
  ["r"%string; "b"%string; "k"%string; "y"%string; "m"%string; "c"%string].

(** [percent = post / post.sum(axis=1).reshape(-1, 1)]. *)
Definition percent (post : matrix) : matrix :=
  map (fun row => map (fun v => v / Rsum row) row) post.

(** The loop of [plot] over the components of one point, entered at
    component [j] with the angle [theta]: the arcs it adds to the axes, or
    [None] when [color[j]] raises [IndexError]. *)
Fixpoint plot_arcs_from (point : vec) (pcs : vec) (j : nat) (theta : R)
  : option (list arc) :=
  match pcs with
  | [] => Some []
  | pc :: rest =>
      let offset := pc * 360 in
      match nth_error color j with
      | None => None
      | Some cl =>
          match plot_arcs_from point rest (S j) (theta + offset) with
          | None => None
          | Some arcs =>
              Some (mkArc point 0.25 0.25 0 theta (theta + offset) cl :: arcs)
          end
      end
  end.

(** The first loop of [plot], over the points [enumerate(X)]: the arcs
    added for each point.  The second loop, which draws one circle and one
    legend per component, is not part of this model. *)
Fixpoint plot_arcs (X : matrix) (pct : matrix) : option (list (list arc)) :=
  match X, pct with
  | point :: X', row :: pct' =>
      match plot_arcs_from point row 0 0 with
      | None => None
      | Some arcs =>
          match plot_arcs X' pct' with
          | None => None
          | Some rest => Some (arcs :: rest)
          end
      end
  | _, _ => Some []
  end.


(** ** Sample inputs *)

(** Two users and one item, with one component sitting at the mean of the
    two ratings: a fixed point of the E-step and M-step. *)
Definition X_two : matrix := [[1]; [3]].
Definition mix_two : GaussianMixture := mkGaussianMixture [[2]] [1] [1].

(** One rating, and one component at that rating whose variance is below
    the floor of the M-step. *)
Definition X_one : matrix := [[1]].
Definition mix_narrow : GaussianMixture :=
  mkGaussianMixture [[1]] [1 / 16] [1].

(** The matrix of the end-to-end scenario and a two-component mixture. *)
Definition X_three : matrix := [[1; 0; 3]; [0; 2; 3]; [1; 2; 0]].
Definition mix_three : GaussianMixture :=
  mkGaussianMixture [[1; 0; 3]; [0; 2; 3]] [1; 2] [1 / 2; 1 / 2].
Definition post_three : matrix := [[1; 0]; [0; 1]; [1 / 2; 1 / 2]].

(** What one E-step and M-step make of [mix_narrow] on [X_one]. *)
Definition mix_floored : GaussianMixture :=
  mkGaussianMixture [[1]] [0.25] [1].

(** A user without any rating next to a user with two. *)
Definition X_gap : matrix := [[0; 0]; [1; 2]].
Definition mix_gap : GaussianMixture :=
  mkGaussianMixture [[1; 2]; [3; 4]] [1; 1] [1 / 2; 1 / 2].

(** A draw that takes the first [K] positions. *)
Definition first_rows (seed n K : nat) : list nat := seq 0 K.

(** Two users and two items, the second item without any rating. *)
Definition X_unrated : matrix := [[1; 0]; [2; 0]].

(** Twelve users and one item, all rated. *)
Definition X_twelve : matrix :=
  [[1]; [2]; [3]; [4]; [5]; [6]; [7]; [8]; [9]; [10]; [11]; [12]].

(** [mix_three] with other variances and weights. *)
Definition mix_three_alt : GaussianMixture :=
  mkGaussianMixture [[1; 0; 3]; [0; 2; 3]] [5; 6] [1; 0].

(** [X_two] with its rows exchanged. *)
Definition X_two_swapped : matrix := [[3]; [1]].


(** * Lists and sums *)

Section ListFacts.
Context {A B C : Type}.

Lemma length_map2 (f : A -> B -> C) (l1 : list A) (l2 : list B) :
  length (map2 f l1 l2) = Nat.min (length l1) (length l2).
Proof.
  revert l2; induction l1 as [|a t IH]; intros [|b t2]; simpl; auto.
Qed.

Lemma nth_map2 (f : A -> B -> C) (l1 : list A) (l2 : list B)
      (j : nat) (a : A) (b : B) (c : C) :
  (j < length l1)%nat -> (j < length l2)%nat ->
  nth j (map2 f l1 l2) c = f (nth j l1 a) (nth j l2 b).
Proof.
  revert l2 j; induction l1 as [|x t IH]; intros [|y t2] [|j]; simpl;
    intros H1 H2; try lia; auto.
  apply IH; lia.
Qed.

Lemma length_mapi_from (f : nat -> A -> B) (l : list A) (k : nat) :
  length (mapi_from k f l) = length l.
Proof. revert k; induction l; simpl; intros; auto. Qed.

Lemma nth_mapi_from (f : nat -> A -> B) (l : list A) (k j : nat)
      (a : A) (b : B) :
  (j < length l)%nat ->
  nth j (mapi_from k f l) b = f (k + j)%nat (nth j l a).
Proof.
  revert k j; induction l as [|x t IH]; simpl; intros k [|j] H; try lia.
  - now rewrite Nat.add_0_r.
  - rewrite IH by lia. f_equal. lia.
Qed.

Lemma length_mapi (f : nat -> A -> B) (l : list A) :
  length (mapi f l) = length l.
Proof. apply length_mapi_from. Qed.

Lemma nth_mapi (f : nat -> A -> B) (l : list A) (j : nat) (a : A) (b : B) :
  (j < length l)%nat -> nth j (mapi f l) b = f j (nth j l a).
Proof. intros H. unfold mapi. now rewrite (nth_mapi_from f l 0 j a b H). Qed.

Lemma length_upd (f : A -> A) (n : nat) (l : list A) :
  length (upd n f l) = length l.
Proof. revert n; induction l; intros [|n]; simpl; auto. Qed.

Lemma nth_upd_same (f : A -> A) (n : nat) (l : list A) (a : A) :
  (n < length l)%nat -> nth n (upd n f l) a = f (nth n l a).
Proof.
  revert n; induction l; intros [|n]; simpl; intros; try lia; auto.
  apply IHl; lia.
Qed.

Lemma nth_upd_other (f : A -> A) (n j : nat) (l : list A) (a : A) :
  n <> j -> nth j (upd n f l) a = nth j l a.
Proof.
  revert n j; induction l; intros [|n] [|j]; simpl; intros; try lia; auto.
Qed.
End ListFacts.

Lemma Rsum_app (l1 l2 : vec) : Rsum (l1 ++ l2) = Rsum l1 + Rsum l2.
Proof. induction l1; simpl; lra. Qed.

Lemma Rsum_map_ext_in {A : Type} (f g : A -> R) (l : list A) :
  (forall a, In a l -> f a = g a) -> Rsum (map f l) = Rsum (map g l).
Proof.
  intros H. f_equal. apply map_ext_in. exact H.
Qed.

Lemma Rsum_map_plus {A : Type} (f g : A -> R) (l : list A) :
  Rsum (map (fun a => f a + g a) l) = Rsum (map f l) + Rsum (map g l).
Proof. induction l; simpl; lra. Qed.

Lemma Rsum_map_scal {A : Type} (c : R) (f : A -> R) (l : list A) :
  Rsum (map (fun a => c * f a) l) = c * Rsum (map f l).
Proof. induction l; simpl; lra. Qed.

Lemma Rsum_map_le {A : Type} (f g : A -> R) (l : list A) :
  (forall a, In a l -> f a <= g a) -> Rsum (map f l) <= Rsum (map g l).
Proof.
  induction l as [|a t IH]; simpl; intros H; [lra|].
  assert (f a <= g a) by auto. assert (Rsum (map f t) <= Rsum (map g t)) by auto.
  lra.
Qed.

Lemma Rsum_map_zero {A : Type} (f : A -> R) (l : list A) :
  (forall a, In a l -> f a = 0) -> Rsum (map f l) = 0.
Proof.
  induction l as [|a t IH]; simpl; intros H; [lra|].
  rewrite H by auto. rewrite IH by auto. lra.
Qed.

Lemma Rsum_map_filter {A : Type} (b : A -> bool) (f : A -> R) (l : list A) :
  Rsum (map f (filter b l)) = Rsum (map (fun a => if b a then f a else 0) l).
Proof.
  induction l as [|a t IH]; simpl; [reflexivity|].
  destruct (b a); simpl; lra.
Qed.

Lemma list_as_map_nth {A : Type} (l : list A) (a : A) :
  l = map (fun j => nth j l a) (seq 0 (length l)).
Proof.
  apply (nth_ext _ _ a ((fun j => nth j l a) 0%nat)).
  - now rewrite length_map, length_seq.
  - intros j Hj.
    rewrite (map_nth (fun j => nth j l a)).
    now rewrite seq_nth.
Qed.

Lemma Rsum_as_bigsum (l : vec) :
  Rsum l = bigsum (length l) (fun j => nth j l 0).
Proof. unfold bigsum. now rewrite <- list_as_map_nth. Qed.

Lemma bigsum_ext (n : nat) (F G : nat -> R) :
  (forall j, (j < n)%nat -> F j = G j) -> bigsum n F = bigsum n G.
Proof.
  intros H. apply Rsum_map_ext_in. intros j Hj. apply in_seq in Hj.
  apply H. lia.
Qed.

Lemma bigsum_plus (n : nat) (F G : nat -> R) :
  bigsum n (fun j => F j + G j) = bigsum n F + bigsum n G.
Proof. apply Rsum_map_plus. Qed.

Lemma bigsum_scal (n : nat) (c : R) (F : nat -> R) :
  bigsum n (fun j => c * F j) = c * bigsum n F.
Proof. apply Rsum_map_scal. Qed.

Lemma bigsum_le (n : nat) (F G : nat -> R) :
  (forall j, (j < n)%nat -> F j <= G j) -> bigsum n F <= bigsum n G.
Proof.
  intros H. apply Rsum_map_le. intros j Hj. apply in_seq in Hj.
  apply H. lia.
Qed.

Lemma bigsum_zero (n : nat) (F : nat -> R) :
  (forall j, (j < n)%nat -> F j = 0) -> bigsum n F = 0.
Proof.
  intros H. apply Rsum_map_zero. intros j Hj. apply in_seq in Hj.
  apply H. lia.
Qed.

Lemma bigsum_nonneg (n : nat) (F : nat -> R) :
  (forall j, (j < n)%nat -> 0 <= F j) -> 0 <= bigsum n F.
Proof.
  intros H. rewrite <- (bigsum_zero n (fun _ => 0)) by auto.
  now apply bigsum_le.
Qed.

Lemma bigsum_const (n : nat) (c : R) : bigsum n (fun _ => c) = INR n * c.
Proof.
  unfold bigsum. generalize 0%nat.
  induction n as [|n IH]; intros s.
  - simpl. lra.
  - rewrite S_INR. cbn [seq map Rsum fold_right]. fold (Rsum (map (fun _ => c) (seq (S s) n))).
    rewrite IH. lra.
Qed.

Lemma bigsum_swap (n m : nat) (F : nat -> nat -> R) :
  bigsum n (fun i => bigsum m (fun j => F i j)) =
  bigsum m (fun j => bigsum n (fun i => F i j)).
Proof.
  unfold bigsum. generalize 0%nat at 2 3. 
  induction n as [|n IH]; intros s.
  - simpl. symmetry. apply Rsum_map_zero. reflexivity.
  - cbn [seq map Rsum fold_right].
    fold (Rsum (map (fun i => Rsum (map (fun j => F i j) (seq 0 m))) (seq (S s) n))).
    rewrite IH.
    rewrite <- Rsum_map_plus. reflexivity.
Qed.

Lemma Rsum_map2_bigsum {A B : Type} (f : A -> B -> R) (l1 : list A)
      (l2 : list B) (n : nat) (a : A) (b : B) :
  length l1 = n -> length l2 = n ->
  Rsum (map2 f l1 l2) = bigsum n (fun j => f (nth j l1 a) (nth j l2 b)).
Proof.
  intros H1 H2. rewrite Rsum_as_bigsum, length_map2, H1, H2, Nat.min_id.
  apply bigsum_ext. intros j Hj. apply nth_map2; lia.
Qed.

Lemma Rsum_map_bigsum {A : Type} (f : A -> R) (l : list A) (a : A) :
  Rsum (map f l) = bigsum (length l) (fun j => f (nth j l a)).
Proof.
  rewrite Rsum_as_bigsum, length_map.
  apply bigsum_ext. intros j Hj.
  rewrite (nth_indep _ 0 (f a)) by (now rewrite length_map).
  apply map_nth.
Qed.

(** * The E-step *)

Lemma Forall_nth_length (M : matrix) (d i : nat) :
  Forall (fun r => length r = d) M -> (i < length M)%nat ->
  length (nth i M []) = d.
Proof.
  intros H Hi. rewrite Forall_forall in H. apply H. now apply nth_In.
Qed.

Lemma nth_non_null_row (x : vec) (j : nat) :
  nth j (non_null_row x) 0%Z =
  if Req_dec_T (nth j x 0) 0 then 0%Z else 1%Z.
Proof.
  unfold non_null_row. revert j.
  induction x as [|a t IH]; intros [|j]; simpl; auto;
    destruct (Req_dec_T 0 0); congruence.
Qed.

Lemma observed_spec (x : vec) (j : nat) :
  observed x j = if Req_dec_T (nth j x 0) 0 then false else true.
Proof. unfold observed, is_zero. now destruct (Req_dec_T (nth j x 0) 0). Qed.

(** The masked difference of the source is a sum over the observed
    dimensions. *)
Lemma norm_entry_dist (x m : vec) (d : nat) :
  length x = d -> length m = d -> norm_entry x m = dist_obs x m d.
Proof.
  intros Hx Hm. unfold norm_entry, dist_obs, obs_dims.
  rewrite Rsum_map_filter.
  rewrite (Rsum_map2_bigsum _ _ _ d 0 0); trivial.
  2:{ rewrite length_map2. unfold non_null_row. rewrite length_map. lia. }
  apply bigsum_ext. intros j Hj.
  rewrite (nth_map2 _ _ _ _ 0%Z 0).
  2:{ unfold non_null_row. rewrite length_map. lia. }
  2:{ lia. }
  rewrite nth_non_null_row, observed_spec.
  destruct (Req_dec_T (nth j x 0) 0) as [E|E].
  - rewrite E. simpl. lra.
  - simpl. lra.
Qed.

Lemma IZR_sum_map {A : Type} (g : A -> Z) (l : list A) :
  IZR (fold_right Z.add 0%Z (map g l)) = Rsum (map (fun a => IZR (g a)) l).
Proof.
  induction l as [|a t IH]; simpl; [reflexivity|].
  now rewrite plus_IZR, IH.
Qed.

Lemma INR_length_filter {A : Type} (b : A -> bool) (l : list A) :
  INR (length (filter b l)) = Rsum (map (fun a => if b a then 1 else 0) l).
Proof.
  induction l as [|a t IH]; [reflexivity|].
  cbn [filter map Rsum fold_right]. fold (Rsum (map (fun a => if b a then 1 else 0) t)).
  destruct (b a).
  - cbn [length]. rewrite S_INR, IH. lra.
  - rewrite IH. lra.
Qed.

(** [rated] counts the observed dimensions. *)
Lemma rated_row_count (x : vec) (d : nat) :
  length x = d -> IZR (rated_row x) = INR (length (obs_dims x d)).
Proof.
  intros Hx. unfold rated_row, non_null_row, obs_dims.
  rewrite IZR_sum_map, INR_length_filter.
  rewrite (Rsum_map_bigsum _ x 0), Hx.
  apply bigsum_ext. intros j Hj. rewrite observed_spec.
  now destruct (Req_dec_T (nth j x 0) 0).
Qed.

Lemma length_f_cells (x : vec) (mus : matrix) (vars ps : vec) (K : nat) :
  length mus = K -> length vars = K -> length ps = K ->
  length (f_cells x mus vars ps) = K.
Proof.
  revert vars ps K.
  induction mus as [|m mus IH]; intros [|v vars] [|pk ps] K; simpl;
    intros H1 H2 H3; try congruence.
  subst K. f_equal. apply IH; congruence.
Qed.

Lemma nth_f_cells (x : vec) (mus : matrix) (vars ps : vec) (K k : nat) :
  length mus = K -> length vars = K -> length ps = K -> (k < K)%nat ->
  nth k (f_cells x mus vars ps) 0 =
  f_entry x (nth k mus []) (nth k vars 0) (nth k ps 0).
Proof.
  revert vars ps K k.
  induction mus as [|m mus IH]; intros [|v vars] [|pk ps] K k; simpl;
    intros H1 H2 H3 Hk; try (subst K; simpl in *; lia).
  destruct k as [|k]; [reflexivity|].
  apply (IH vars ps (length mus)); try lia.
Qed.

Lemma length_f_row (x : vec) (mixture : GaussianMixture) (K d : nat) :
  mixture_shape K d mixture -> length (f_row x mixture) = K.
Proof.
  intros [[H1 _] [H2 H3]]. now apply length_f_cells.
Qed.

Lemma entry_f_matrix (X : matrix) (mixture : GaussianMixture)
      (K d i k : nat) :
  mixture_shape K d mixture -> (i < length X)%nat -> (k < K)%nat ->
  entry (f_matrix X mixture) i k =
  f_entry (nth i X []) (nth k (mu mixture) []) (nth k (var mixture) 0)
          (nth k (p mixture) 0).
Proof.
  intros [[H1 _] [H2 H3]] Hi Hk. unfold entry, f_matrix.
  rewrite (nth_indep _ [] ((fun x => f_row x mixture) []))
    by (now rewrite length_map).
  rewrite (map_nth (fun x => f_row x mixture)).
  now apply (nth_f_cells _ _ _ _ K).
Qed.

(** The closed form of one cell of [f]. *)
Lemma f_entry_formula (x m : vec) (v pk : R) (d : nat) :
  length x = d -> length m = d ->
  f_entry x m v pk =
  - dist_obs x m d / (2 * v)
  - (INR (length (obs_dims x d)) / 2) * (ln (2 * PI) + ln v)
  + ln (pk + 1e-16).
Proof.
  intros Hx Hm. unfold f_entry.
  rewrite (norm_entry_dist x m d Hx Hm), (rated_row_count x d Hx).
  now rewrite (Rmult_comm v 2).
Qed.

Lemma dist_obs_agree (x m m' : vec) (d : nat) :
  (forall j, (j < d)%nat -> observed x j = true -> nth j m' 0 = nth j m 0) ->
  dist_obs x m' d = dist_obs x m d.
Proof.
  intros H. unfold dist_obs. apply Rsum_map_ext_in. intros j Hj.
  unfold obs_dims in Hj. apply filter_In in Hj. destruct Hj as [Hj Ho].
  apply in_seq in Hj. rewrite H; trivial. lia.
Qed.

(** C3: every cell of [f] is
    [-dist(i,k)/(2 var[k]) - (r_i/2)(log(2 pi) + log var[k]) + log(p[k] + 1e-16)]
    with [dist] and [r_i] taken over the observed dimensions of row [i];
    the means of the unobserved dimensions of that row do not enter it. *)
Theorem estep_f_formula (X : matrix) (mixture : GaussianMixture)
        (n d K i k : nat) :
  matrix_shape n d X -> mixture_shape K d mixture ->
  (i < n)%nat -> (k < K)%nat ->
  entry (f_matrix X mixture) i k =
    - dist_obs (nth i X []) (nth k (mu mixture) []) d
      / (2 * nth k (var mixture) 0)
    - (INR (length (obs_dims (nth i X []) d)) / 2)
      * (ln (2 * PI) + ln (nth k (var mixture) 0))
    + ln (nth k (p mixture) 0 + 1e-16)
  /\
  forall mixture' : GaussianMixture,
    mixture_shape K d mixture' ->
    var mixture' = var mixture -> p mixture' = p mixture ->
    (forall j, (j < d)%nat -> observed (nth i X []) j = true ->
               entry (mu mixture') k j = entry (mu mixture) k j) ->
    entry (f_matrix X mixture') i k = entry (f_matrix X mixture) i k.
Proof.
  intros [Hn HX] Hm Hi Hk.
  assert (Hx : length (nth i X []) = d) by (apply Forall_nth_length; auto; lia).
  assert (Hmu : forall m0, mixture_shape K d m0 ->
                      length (nth k (mu m0) []) = d).
  { intros m0 [[H1 H2] _]. apply Forall_nth_length; auto; lia. }
  split.
  - rewrite (entry_f_matrix X mixture K d) by (auto; lia).
    apply f_entry_formula; auto.
  - intros mixture' Hm' Hv Hp Hag.
    rewrite (entry_f_matrix X mixture K d), (entry_f_matrix X mixture' K d)
      by (auto; lia).
    rewrite !(f_entry_formula _ _ _ _ d) by auto.
    rewrite Hv, Hp.
    now rewrite (dist_obs_agree _ (nth k (mu mixture) []) (nth k (mu mixture') []) d Hag).
Qed.

Lemma Rsum_map_exp_pos (l : vec) : l <> [] -> 0 < Rsum (map exp l).
Proof.
  destruct l as [|a t]; [congruence|]. intros _. simpl.
  assert (0 <= Rsum (map exp t)).
  { induction t as [|b t IH]; simpl; [lra|]. pose proof (exp_pos b). lra. }
  pose proof (exp_pos a). lra.
Qed.

(** Subtracting the maximum does not change the value of the
    log-sum-exp. *)
Lemma logsumexp_ln (l : vec) :
  l <> [] -> logsumexp l = ln (Rsum (map exp l)).
Proof.
  intros Hl. unfold logsumexp. set (M := Rmax_list l).
  rewrite (Rsum_map_ext_in (fun a => exp (a - M)) (fun a => exp (- M) * exp a)).
  2:{ intros a _. rewrite <- exp_plus. f_equal. lra. }
  rewrite Rsum_map_scal, ln_mult, ln_exp.
  - lra.
  - apply exp_pos.
  - now apply Rsum_map_exp_pos.
Qed.

Lemma exp_logsumexp (l : vec) :
  l <> [] -> exp (logsumexp l) = Rsum (map exp l).
Proof.
  intros Hl. rewrite logsumexp_ln by trivial.
  apply exp_ln. now apply Rsum_map_exp_pos.
Qed.

Lemma post_row_eq (fr : vec) :
  post_row fr = map (fun v => exp (v - logsumexp fr)) fr.
Proof. unfold post_row, log_post_row. now rewrite map_map. Qed.

(** A row of responsibilities is the softmax of the row of [f]. *)
Lemma post_row_softmax (fr : vec) (k : nat) :
  fr <> [] -> (k < length fr)%nat ->
  nth k (post_row fr) 0 = exp (nth k fr 0) / Rsum (map exp fr).
Proof.
  intros Hne Hk. rewrite post_row_eq.
  rewrite (nth_indep _ 0 ((fun v => exp (v - logsumexp fr)) 0))
    by (now rewrite length_map).
  rewrite (map_nth (fun v => exp (v - logsumexp fr))).
  unfold Rminus. rewrite exp_plus, exp_Ropp, exp_logsumexp by trivial.
  reflexivity.
Qed.

Lemma post_row_sum (fr : vec) : fr <> [] -> Rsum (post_row fr) = 1.
Proof.
  intros Hne. rewrite post_row_eq.
  rewrite (Rsum_map_ext_in _ (fun v => exp (- logsumexp fr) * exp v)).
  2:{ intros a _. rewrite <- exp_plus. f_equal. lra. }
  rewrite Rsum_map_scal, exp_Ropp, exp_logsumexp by trivial.
  apply Rinv_l. pose proof (Rsum_map_exp_pos fr Hne). lra.
Qed.

Lemma post_row_pos (fr : vec) (k : nat) :
  (k < length fr)%nat -> 0 < nth k (post_row fr) 0.
Proof.
  intros Hk. rewrite post_row_eq.
  rewrite (nth_indep _ 0 ((fun v => exp (v - logsumexp fr)) 0))
    by (now rewrite length_map).
  rewrite (map_nth (fun v => exp (v - logsumexp fr))). apply exp_pos.
Qed.

Lemma length_post_row (fr : vec) : length (post_row fr) = length fr.
Proof. unfold post_row, log_post_row. now rewrite !length_map. Qed.

Lemma fst_estep (X : matrix) (mixture : GaussianMixture) :
  fst (estep X mixture) = map post_row (f_matrix X mixture).
Proof. unfold estep. simpl. now rewrite map_map. Qed.

Lemma mixture_ok_pos_K (K d : nat) (mixture : GaussianMixture) :
  mixture_ok K d mixture -> (0 < K)%nat.
Proof.
  intros [[_ [_ Hp]] [Hs _]]. destruct (p mixture) as [|a t].
  - simpl in Hs. lra.
  - simpl in Hp. lia.
Qed.

Lemma f_row_nonempty (x : vec) (mixture : GaussianMixture) (K d : nat) :
  mixture_shape K d mixture -> (0 < K)%nat -> f_row x mixture <> [].
Proof.
  intros Hm HK E. apply (f_equal (@length R)) in E.
  rewrite (length_f_row x mixture K d Hm) in E. simpl in E. lia.
Qed.

Lemma nth_post_estep (X : matrix) (mixture : GaussianMixture) (i : nat) :
  (i < length X)%nat ->
  nth i (fst (estep X mixture)) [] = post_row (f_row (nth i X []) mixture).
Proof.
  intros Hi. rewrite fst_estep. unfold f_matrix. rewrite map_map.
  rewrite (nth_indep _ [] ((fun x => post_row (f_row x mixture)) []))
    by (now rewrite length_map).
  now rewrite (map_nth (fun x => post_row (f_row x mixture))).
Qed.

(** C4: every row of the responsibilities returned by the E-step sums to
    one. *)
Theorem estep_post_rows_sum_to_one (X : matrix) (mixture : GaussianMixture)
        (n d K i : nat) :
  matrix_shape n d X -> mixture_ok K d mixture -> (i < n)%nat ->
  Rsum (nth i (fst (estep X mixture)) []) = 1 /\
  Rabs (Rsum (nth i (fst (estep X mixture)) []) - 1) <= 1e-9.
Proof.
  intros [Hn _] Hok Hi.
  assert (E : Rsum (nth i (fst (estep X mixture)) []) = 1).
  { rewrite nth_post_estep by lia. apply post_row_sum.
    apply (f_row_nonempty _ _ K d); [apply Hok | now apply (mixture_ok_pos_K K d mixture)]. }
  split; [exact E|]. rewrite E.
  replace (1 - 1) with 0 by lra. rewrite Rabs_R0. lra.
Qed.

Lemma estep_ll_rows (F : matrix) :
  map2 (map2 Rmult) (map (map exp) (map log_post_row F))
       (map2 (map2 Rminus) F (map log_post_row F)) =
  map (fun fr => map2 Rmult (post_row fr) (map2 Rminus fr (log_post_row fr))) F.
Proof. induction F as [|x t IH]; simpl; [reflexivity|]. now rewrite IH. Qed.

Lemma snd_estep (X : matrix) (mixture : GaussianMixture) :
  snd (estep X mixture) =
  Rsum (map (fun fr => Rsum (map2 Rmult (post_row fr)
                                  (map2 Rminus fr (log_post_row fr))))
            (f_matrix X mixture)).
Proof.
  unfold estep. cbn [snd]. unfold Rsum2.
  now rewrite estep_ll_rows, map_map.
Qed.

(** Along a row, [post * (f - log_post)] sums to the log-normalizer. *)
Lemma ll_row (fr : vec) :
  fr <> [] ->
  Rsum (map2 Rmult (post_row fr) (map2 Rminus fr (log_post_row fr))) =
  logsumexp fr.
Proof.
  intros Hne.
  rewrite (Rsum_map2_bigsum _ _ _ (length fr) 0 0).
  2:{ apply length_post_row. }
  2:{ rewrite length_map2. unfold log_post_row. rewrite length_map. lia. }
  rewrite (bigsum_ext _ _ (fun k => logsumexp fr * nth k (post_row fr) 0)).
  - rewrite bigsum_scal, <- (length_post_row fr), <- Rsum_as_bigsum.
    rewrite post_row_sum by trivial. lra.
  - intros k Hk. rewrite (nth_map2 _ _ _ _ 0 0).
    2:{ lia. }
    2:{ unfold log_post_row. now rewrite length_map. }
    unfold log_post_row.
    rewrite (nth_indep (map _ fr) 0 ((fun v => v - logsumexp fr) 0))
      by (rewrite length_map; exact Hk).
    rewrite (map_nth (fun v => v - logsumexp fr)). lra.
Qed.

(** C7: the log-likelihood returned by the E-step, the sum of
    [post * (f - log_post)] over all cells, is the sum over the rows of
    the log-normalizer [logsumexp_k f(i,k)]. *)
Theorem estep_loglik_is_sum_of_normalizers (X : matrix)
        (mixture : GaussianMixture) (n d K : nat) :
  matrix_shape n d X -> mixture_ok K d mixture ->
  snd (estep X mixture) = Rsum (map logsumexp (f_matrix X mixture)).
Proof.
  intros _ Hok. rewrite snd_estep. apply Rsum_map_ext_in.
  intros fr Hin. apply ll_row.
  unfold f_matrix in Hin. apply in_map_iff in Hin. destruct Hin as [x [<- _]].
  apply (f_row_nonempty _ _ K d); [apply Hok | now apply (mixture_ok_pos_K K d mixture)].
Qed.

(** * The M-step *)

Lemma nth_map_fix (g : R -> R) (l : vec) (j : nat) :
  g 0 = 0 -> nth j (map g l) 0 = g (nth j l 0).
Proof.
  intros Hg. revert j. induction l as [|a t IH]; intros [|j]; simpl; auto.
Qed.

Lemma nth_col (M : matrix) (i j : nat) : nth i (col j M) 0 = entry M i j.
Proof.
  unfold col, entry. revert i.
  induction M as [|r t IH]; intros [|i]; simpl; auto; now destruct j.
Qed.

Lemma length_col (M : matrix) (j : nat) : length (col j M) = length M.
Proof. apply length_map. Qed.

Lemma ncols_shape (M : matrix) (n d : nat) :
  matrix_shape n d M -> (0 < n)%nat -> ncols M = d.
Proof.
  intros [Hn HM] H0. unfold ncols. destruct M as [|r t]; simpl in *; [lia|].
  now inversion HM.
Qed.

Lemma entry_X2_of (X : matrix) (i j : nat) :
  entry (X2_of X) i j = obs_ind X i j.
Proof.
  unfold obs_ind, is_zero, entry, X2_of.
  set (g := fun v : R => if Req_dec_T v 0 then v else 1).
  assert (Hg : g 0 = 0) by (unfold g; destruct (Req_dec_T 0 0); congruence).
  assert (E : nth i (map (map g) X) [] = map g (nth i X [])).
  { revert i. induction X as [|r t IH]; intros [|i]; simpl; auto. }
  rewrite E, nth_map_fix by exact Hg. unfold g.
  destruct (Req_dec_T (nth j (nth i X []) 0) 0); auto.
Qed.

Lemma X2_of_shape (X : matrix) (n d : nat) :
  matrix_shape n d X -> matrix_shape n d (X2_of X).
Proof.
  intros [Hn HX]. split.
  - unfold X2_of. now rewrite length_map.
  - unfold X2_of. apply Forall_map. eapply Forall_impl; [|exact HX].
    intros r Hr. now rewrite length_map.
Qed.

Lemma obs_ind_cases (X : matrix) (i j : nat) :
  (obs_ind X i j = 0 /\ entry X i j = 0) \/
  (obs_ind X i j = 1 /\ entry X i j <> 0).
Proof.
  unfold obs_ind, is_zero. destruct (Req_dec_T (entry X i j) 0); auto.
Qed.

Lemma mean_den_bigsum (X post : matrix) (n : nat) (k j : nat) :
  length X = n -> length post = n ->
  mean_den (X2_of X) post k j =
  bigsum n (fun i => entry post i k * obs_ind X i j).
Proof.
  intros HX Hp. unfold mean_den.
  rewrite (Rsum_map2_bigsum _ _ _ n 0 0).
  - apply bigsum_ext. intros i Hi. rewrite !nth_col, entry_X2_of. lra.
  - rewrite length_col. unfold X2_of. now rewrite length_map.
  - now rewrite length_col.
Qed.

Lemma mean_num_bigsum (X post : matrix) (n : nat) (k j : nat) :
  length X = n -> length post = n ->
  mean_num X post k j =
  bigsum n (fun i => entry post i k * entry X i j * obs_ind X i j).
Proof.
  intros HX Hp. unfold mean_num.
  rewrite (Rsum_map2_bigsum _ _ _ n 0 0).
  - apply bigsum_ext. intros i Hi. rewrite !nth_col.
    destruct (obs_ind_cases X i j) as [[-> E]|[-> E]]; [rewrite E|]; lra.
  - now rewrite length_col.
  - now rewrite length_col.
Qed.

Lemma entry_mu_hat (X post : matrix) (mixture : GaussianMixture)
      (K d k j : nat) :
  ncols post = K -> ncols X = d -> matrix_shape K d (mu mixture) ->
  (k < K)%nat -> (j < d)%nat ->
  entry (mu_hat X post mixture) k j =
  mu_h_cell X post k j (entry (mu mixture) k j).
Proof.
  intros HK Hd [Hl Hr] Hk Hj. unfold entry, mu_hat.
  rewrite (nth_mapi _ _ _ [] []) by lia.
  rewrite (nth_mapi _ _ _ 0 0) by (rewrite (Forall_nth_length _ d); auto; lia).
  rewrite HK, Hd.
  destruct (Nat.ltb_spec k K); [|lia]. destruct (Nat.ltb_spec j d); [|lia].
  reflexivity.
Qed.

Lemma mu_hat_shape (X post : matrix) (mixture : GaussianMixture) (K d : nat) :
  matrix_shape K d (mu mixture) -> matrix_shape K d (mu_hat X post mixture).
Proof.
  intros [Hl Hr]. unfold mu_hat. split.
  - now rewrite length_mapi.
  - apply Forall_forall. intros r Hin.
    destruct (In_nth _ _ [] Hin) as [k [Hk E]].
    rewrite length_mapi in Hk. rewrite (nth_mapi _ _ _ [] []) in E by trivial.
    rewrite <- E, length_mapi. now apply Forall_nth_length.
Qed.

(** C6: the new mean of component [k] in dimension [j] is the
    responsibility-weighted average of the observed values when the
    observed weight is at least one, and the previous mean otherwise. *)
Theorem mstep_mean_update (X post : matrix) (mixture : GaussianMixture)
        (min_variance : R) (n d K k j : nat) :
  (0 < n)%nat -> matrix_shape n d X -> matrix_shape n K post ->
  mixture_shape K d mixture -> (k < K)%nat -> (j < d)%nat ->
  let den := bigsum n (fun i => entry post i k * obs_ind X i j) in
  (1 <= den ->
   entry (mu (mstep X post mixture min_variance)) k j =
   bigsum n (fun i => entry post i k * entry X i j * obs_ind X i j) / den)
  /\
  (den < 1 ->
   entry (mu (mstep X post mixture min_variance)) k j =
   entry (mu mixture) k j).
Proof.
  intros Hn HX Hpost [Hmu _] Hk Hj den.
  cbn [mstep mu].
  rewrite (entry_mu_hat X post mixture K d)
    by (auto; eapply ncols_shape; eauto).
  unfold mu_h_cell.
  rewrite (mean_den_bigsum X post n), (mean_num_bigsum X post n)
    by (apply HX || apply Hpost).
  fold den.
  destruct (Rge_dec den 1) as [Hge|Hlt]; split; intros H; try reflexivity; lra.
Qed.

Lemma Rsum_nth_row (M : matrix) (n K i : nat) :
  matrix_shape n K M -> (i < n)%nat ->
  Rsum (nth i M []) = bigsum K (fun k => entry M i k).
Proof.
  intros [Hn HM] Hi. rewrite Rsum_as_bigsum.
  rewrite (Forall_nth_length M K) by (auto; lia). reflexivity.
Qed.

Lemma nth_p_hat (post : matrix) (n K k : nat) :
  (0 < n)%nat -> matrix_shape n K post -> (k < K)%nat ->
  nth k (p_hat post) 0 = bigsum n (fun i => entry post i k) / INR n.
Proof.
  intros Hn Hpost Hk. unfold p_hat.
  rewrite (ncols_shape post n K Hpost Hn). unfold nrows.
  rewrite (nth_indep _ 0 ((fun k => Rsum (col k post) / INR (length post)) 0%nat))
    by (now rewrite length_map, length_seq).
  rewrite (map_nth (fun k => Rsum (col k post) / INR (length post))).
  rewrite seq_nth by trivial. cbn [Nat.add].
  destruct Hpost as [Hl _]. rewrite Hl. f_equal.
  rewrite Rsum_as_bigsum, length_col, Hl.
  apply bigsum_ext. intros i _. apply nth_col.
Qed.

Lemma length_p_hat (post : matrix) (n K : nat) :
  (0 < n)%nat -> matrix_shape n K post -> length (p_hat post) = K.
Proof.
  intros Hn Hpost. unfold p_hat.
  now rewrite length_map, length_seq, (ncols_shape post n K Hpost Hn).
Qed.

Lemma Rsum_p_hat (post : matrix) (n K : nat) :
  (0 < n)%nat -> matrix_shape n K post ->
  Forall (fun r => Rsum r = 1) post ->
  Rsum (p_hat post) = 1.
Proof.
  intros Hn Hpost Hrows.
  rewrite Rsum_as_bigsum, (length_p_hat post n K) by trivial.
  rewrite (bigsum_ext _ _ (fun k => / INR n * bigsum n (fun i => entry post i k))).
  2:{ intros k Hk. rewrite (nth_p_hat post n K) by trivial.
      unfold Rdiv. apply Rmult_comm. }
  rewrite bigsum_scal, <- bigsum_swap.
  rewrite (bigsum_ext _ _ (fun _ => 1)).
  2:{ intros i Hi. rewrite <- (Rsum_nth_row post n K) by trivial.
      rewrite Forall_forall in Hrows. apply Hrows. apply nth_In.
      destruct Hpost as [Hl _]. lia. }
  rewrite bigsum_const. rewrite Rmult_1_r. apply Rinv_l.
  apply not_0_INR. lia.
Qed.

Lemma nth_var_hat (X post mu_h : matrix) (mixture : GaussianMixture)
      (min_variance : R) (K k : nat) :
  ncols post = K -> length (var mixture) = K -> (k < K)%nat ->
  nth k (var_hat X post mu_h mixture min_variance) 0 =
  var_h_cell X post (nth k mu_h []) k min_variance.
Proof.
  intros HK Hv Hk. unfold var_hat.
  rewrite (nth_mapi _ _ _ 0 0) by lia. rewrite HK.
  destruct (Nat.ltb_spec k K); [reflexivity | lia].
Qed.

Lemma var_h_cell_floor (X post : matrix) (mk : vec) (k : nat)
      (min_variance : R) :
  min_variance <= var_h_cell X post mk k min_variance.
Proof.
  unfold var_h_cell.
  destruct (Rge_dec (var_num X post mk k / var_den X post k) min_variance);
    lra.
Qed.

(** C5: after the M-step the weights are the column means of the
    responsibilities and sum to one, and no variance is below the
    floor. *)
Theorem mstep_weights_and_variance_floor (X post : matrix)
        (mixture : GaussianMixture) (min_variance : R) (n d K : nat) :
  (0 < n)%nat -> matrix_shape n d X -> matrix_shape n K post ->
  mixture_shape K d mixture ->
  Forall (fun r => Rsum r = 1) post ->
  let m' := mstep X post mixture min_variance in
  Rsum (p m') = 1 /\
  Rabs (Rsum (p m') - 1) <= 1e-9 /\
  (forall k, (k < K)%nat ->
             nth k (p m') 0 = bigsum n (fun i => entry post i k) / INR n) /\
  (forall k, (k < K)%nat -> min_variance <= nth k (var m') 0) /\
  (forall k, (k < K)%nat ->
             0.25 <= nth k (var (mstep X post mixture default_min_variance)) 0).
Proof.
  intros Hn HX Hpost Hm Hrows m'. unfold m'. cbn [mstep p var].
  assert (E : Rsum (p_hat post) = 1) by now apply (Rsum_p_hat post n K).
  assert (HK : ncols post = K) by (eapply ncols_shape; eauto).
  destruct Hm as [_ [Hv _]].
  repeat split.
  - exact E.
  - rewrite E. replace (1 - 1) with 0 by lra. rewrite Rabs_R0. lra.
  - intros k Hk. now apply (nth_p_hat post n K).
  - intros k Hk. rewrite (nth_var_hat _ _ _ _ _ K) by trivial.
    apply var_h_cell_floor.
  - intros k Hk. rewrite (nth_var_hat _ _ _ _ _ K) by trivial.
    apply (var_h_cell_floor X post _ k default_min_variance).
Qed.

(** * The convergence loop *)

Lemma estep_pair (X : matrix) (mixture : GaussianMixture) :
  estep X mixture = (fst (estep X mixture), snd (estep X mixture)).
Proof. apply surjective_pairing. Qed.

Lemma mixture_at_S (X : matrix) (mixture : GaussianMixture) (i : nat) :
  mixture_at X mixture (S i) =
  mstep X (fst (estep X (mixture_at X mixture i))) (mixture_at X mixture i)
        default_min_variance.
Proof. reflexivity. Qed.

(** One pass of the loop from a state at pass [i]: what it computes and
    when it stops. *)
Lemma run_body_step (X : matrix) (mixture : GaussianMixture) (i : nat)
      (s : loop_state) :
  loop_inv X mixture i s ->
  match run_body X s with
  | Continue s' =>
      loop_inv X mixture (S i) s' /\
      (i = 0%nat \/ ~ improvement_small X mixture i)
  | Break s' c =>
      (0 < i)%nat /\ improvement_small X mixture i /\
      c = cost_at X mixture i /\
      ls_mixture s' = mixture_at X mixture (S i) /\
      ls_post s' = fst (estep X (mixture_at X mixture i))
  | Raise => False
  end.
Proof.
  intros [Hi [Hm Hc]]. unfold run_body. rewrite Hm, Hi.
  rewrite (estep_pair X (mixture_at X mixture i)).
  fold (cost_at X mixture i).
  destruct (Nat.ltb_spec 0 i) as [Hpos|Hz].
  - rewrite (Hc Hpos).
    destruct (Rle_dec (cost_at X mixture i - cost_at X mixture (i - 1))
                      (1e-6 * Rabs (cost_at X mixture i))) as [Hle|Hgt].
    + repeat split; auto.
    + split; [|right; exact Hgt].
      repeat split; cbn [ls_i ls_mixture ls_cost]; auto.
      intros _. now replace (S i - 1)%nat with i by lia.
  - split; [|left; lia].
    repeat split; cbn [ls_i ls_mixture ls_cost]; auto.
    intros _. now replace (S i - 1)%nat with i by lia.
Qed.

Lemma loop_inv_init (X : matrix) (mixture : GaussianMixture) (post : matrix)
      (g : option R) :
  loop_inv X mixture 0 (mkLoop 0 mixture post None g).
Proof. repeat split. cbn. lia. Qed.

(** While the test fails the loop goes on: fuel that runs out before the
    first pass whose test succeeds returns nothing. *)
Lemma run_loop_not_yet (X : matrix) (mixture : GaussianMixture)
      (N fuel i : nat) (s : loop_state) :
  loop_inv X mixture i s ->
  (forall j, (0 < j)%nat -> (j < N)%nat -> ~ improvement_small X mixture j) ->
  (i + fuel <= N)%nat ->
  run_loop fuel X s = None.
Proof.
  revert i s. induction fuel as [|fuel IH]; intros i s Hinv Hno Hle;
    [reflexivity|].
  cbn [run_loop]. pose proof (run_body_step X mixture i s Hinv) as Hstep.
  destruct (run_body X s) as [s'|s' c|].
  - destruct Hstep as [Hinv' _]. apply (IH (S i)); auto. lia.
  - destruct Hstep as [Hpos [Hsmall _]]. exfalso.
    apply (Hno i); auto. lia.
  - reflexivity.
Qed.

Lemma run_loop_stops (X : matrix) (mixture : GaussianMixture)
      (N fuel i : nat) (s : loop_state) :
  loop_inv X mixture i s ->
  (0 < N)%nat -> improvement_small X mixture N ->
  (forall j, (0 < j)%nat -> (j < N)%nat -> ~ improvement_small X mixture j) ->
  (i <= N)%nat -> (N < i + fuel)%nat ->
  exists s', run_loop fuel X s = Some (s', cost_at X mixture N) /\
             ls_mixture s' = mixture_at X mixture (S N) /\
             ls_post s' = fst (estep X (mixture_at X mixture N)).
Proof.
  revert i s. induction fuel as [|fuel IH]; intros i s Hinv HN Hyes Hno Hle Hlt;
    [lia|].
  cbn [run_loop]. pose proof (run_body_step X mixture i s Hinv) as Hstep.
  destruct (run_body X s) as [s'|s' c|].
  - destruct Hstep as [Hinv' Hwhy].
    assert (i <> N).
    { intros ->. destruct Hwhy as [Hz|Hnot]; [lia | contradiction]. }
    apply (IH (S i)); auto; lia.
  - destruct Hstep as [Hpos [Hsmall [Hc [Hm Hp]]]].
    assert (i = N).
    { destruct (Nat.eq_dec i N); trivial. exfalso. apply (Hno i); auto. lia. }
    subst i c. exists s'. auto.
  - contradiction.
Qed.

(** C2: the first pass makes no test; the loop stops at the first later
    pass [N] whose improvement is at most [1e-6 * |cost|], and returns the
    mixture of that pass's M-step with that pass's E-step [post] and
    [cost]: the last M-step is not followed by another E-step. *)
Theorem run_returns_stopping_pass (X : matrix) (mixture : GaussianMixture)
        (post : matrix) (g : option R) (N fuel : nat) :
  (0 < N)%nat -> improvement_small X mixture N ->
  (forall j, (0 < j)%nat -> (j < N)%nat -> ~ improvement_small X mixture j) ->
  run 1 g X mixture post = None /\
  (forall fuel', (fuel' <= N)%nat -> run fuel' g X mixture post = None) /\
  run (S N + fuel) g X mixture post =
  Some (mstep X (fst (estep X (mixture_at X mixture N)))
              (mixture_at X mixture N) default_min_variance,
        fst (estep X (mixture_at X mixture N)),
        snd (estep X (mixture_at X mixture N))).
Proof.
  intros HN Hyes Hno.
  assert (Hnone : forall fuel', (fuel' <= N)%nat ->
                           run fuel' g X mixture post = None).
  { intros fuel' Hle. unfold run.
    now rewrite (run_loop_not_yet X mixture N fuel' 0 _
                   (loop_inv_init X mixture post g) Hno Hle). }
  split; [apply Hnone; lia|]. split; [exact Hnone|].
  unfold run.
  destruct (run_loop_stops X mixture N (S N + fuel) 0 _
              (loop_inv_init X mixture post g) HN Hyes Hno)
    as [s' [E [Hm Hp]]]; try lia.
  rewrite E, Hm, Hp. reflexivity.
Qed.

(** The first pass never stops the loop, whatever the costs. *)
Lemma run_first_pass_goes_on (X : matrix) (mixture : GaussianMixture)
      (post : matrix) (g : option R) :
  run 1 g X mixture post = None.
Proof.
  unfold run. cbn [run_loop].
  pose proof (run_body_step X mixture 0 _ (loop_inv_init X mixture post g)) as H.
  destruct (run_body X _) as [s'|s' c|]; [reflexivity | lia | reflexivity].
Qed.

Lemma mixture_at_fixed (X : matrix) (mixture : GaussianMixture) (i : nat) :
  em_step X mixture = mixture -> mixture_at X mixture i = mixture.
Proof.
  intros H. induction i as [|i IH]; [reflexivity|].
  change (em_step X (mixture_at X mixture i) = mixture). now rewrite IH.
Qed.

(** C9: started on a mixture that one E-step and M-step reproduce, the
    loop does not stop in its first pass, which makes no test; it stops in
    the second, and returns that mixture. *)
Theorem run_at_fixed_point (X : matrix) (mixture : GaussianMixture)
        (post : matrix) (g : option R) (fuel : nat) :
  em_step X mixture = mixture ->
  run 1 g X mixture post = None /\
  run (2 + fuel) g X mixture post =
  Some (mixture, fst (estep X mixture), snd (estep X mixture)).
Proof.
  intros Hfix. split; [apply run_first_pass_goes_on|].
  assert (Hsmall : improvement_small X mixture 1).
  { unfold improvement_small, cost_at.
    rewrite !(mixture_at_fixed X mixture _ Hfix).
    pose proof (Rabs_pos (snd (estep X mixture))). lra. }
  unfold run.
  destruct (run_loop_stops X mixture 1 (2 + fuel) 0 _
              (loop_inv_init X mixture post g)) as [s' [E [Hm Hp]]];
    try lia; trivial.
  rewrite E, Hm, Hp.
  rewrite !(mixture_at_fixed X mixture _ Hfix). unfold cost_at.
  now rewrite !(mixture_at_fixed X mixture _ Hfix).
Qed.

(** * Imputation *)

Lemma entry_set_cell (M : matrix) (i j i' j' : nat) (v : R) :
  (i < length M)%nat -> (j < length (nth i M []))%nat ->
  entry (upd i (upd j (fun _ => v)) M) i' j' =
  if (i =? i')%nat && (j =? j')%nat then v else entry M i' j'.
Proof.
  intros Hi Hj. unfold entry.
  destruct (Nat.eqb_spec i i') as [<-|Hne]; cbn [andb].
  - rewrite (nth_upd_same _ _ _ []) by trivial.
    destruct (Nat.eqb_spec j j') as [<-|Hne].
    + now rewrite (nth_upd_same _ _ _ 0).
    + now rewrite nth_upd_other.
  - now rewrite nth_upd_other.
Qed.

Lemma shape_set_cell (M : matrix) (n d i j : nat) (v : R) :
  matrix_shape n d M -> matrix_shape n d (upd i (upd j (fun _ => v)) M).
Proof.
  intros [Hn HM]. split; [now rewrite length_upd|].
  apply Forall_forall. intros r Hin.
  destruct (In_nth _ _ [] Hin) as [i' [Hi' E]]. rewrite length_upd in Hi'.
  subst r. destruct (Nat.eq_dec i i') as [<-|Hne].
  - rewrite (nth_upd_same _ _ _ []) by trivial. rewrite length_upd.
    now apply Forall_nth_length.
  - rewrite nth_upd_other by trivial. now apply Forall_nth_length.
Qed.

Lemma pos_eq_dec (a b : nat * nat) : {a = b} + {a <> b}.
Proof. decide equality; apply Nat.eq_dec. Qed.

Section FoldSet.
Variable v : nat * nat -> R.

Local Abbreviation set := (write_cell v).

(** Writing [v] at every position of [L] changes those cells and no
    other. *)
Lemma entry_fold_set (L : list (nat * nat)) (M : matrix) (n d : nat) :
  matrix_shape n d M ->
  (forall ij, In ij L -> (fst ij < n)%nat /\ (snd ij < d)%nat) ->
  matrix_shape n d (fold_left set L M) /\
  forall i j,
    (In (i, j) L -> entry (fold_left set L M) i j = v (i, j)) /\
    (~ In (i, j) L -> entry (fold_left set L M) i j = entry M i j).
Proof.
  revert M. induction L as [|a L IH]; intros M HM Hin.
  - split; [exact HM|]. intros i j. split; [intros []|reflexivity].
  - cbn [fold_left].
    assert (Ha : (fst a < n)%nat /\ (snd a < d)%nat) by (apply Hin; now left).
    assert (HM' : matrix_shape n d (set M a)) by (now apply shape_set_cell).
    destruct (IH (set M a) HM') as [Hs Hc].
    { intros ij H. apply Hin. now right. }
    split; [exact Hs|]. intros i j.
    destruct (Hc i j) as [Hyes Hno].
    assert (Hset : entry (set M a) i j =
                   if (fst a =? i)%nat && (snd a =? j)%nat then v a
                   else entry M i j).
    { unfold write_cell. apply entry_set_cell.
      - destruct HM as [Hn _]. lia.
      - destruct HM as [Hn Hr]. rewrite (Forall_nth_length M d); auto; lia. }
    split.
    + intros [E|H].
      * subst a. cbn [fst snd] in Hset. rewrite !Nat.eqb_refl in Hset.
        destruct (in_dec pos_eq_dec (i, j) L)
          as [Hi|Hni]; [now apply Hyes|].
        rewrite (Hno Hni). exact Hset.
      * now apply Hyes.
    + intros Hni.
      assert (Hni' : ~ In (i, j) L) by (intros H; apply Hni; now right).
      rewrite (Hno Hni'), Hset.
      destruct (Nat.eqb_spec (fst a) i) as [E1|]; cbn [andb]; trivial.
      destruct (Nat.eqb_spec (snd a) j) as [E2|]; trivial.
      exfalso. apply Hni. left. destruct a. cbn in *. congruence.
Qed.

(** On the store, the writes go to the array named [out] alone. *)
Lemma deref_fold_setitem (L : list (nat * nat)) (h : heap) (out : ref) :
  (out < length h)%nat ->
  let h' := fold_left (fun hh ij => setitem hh out (fst ij) (snd ij) (v ij))
                      L h in
  length h' = length h /\
  deref h' out = fold_left set L (deref h out) /\
  forall r, r <> out -> deref h' r = deref h r.
Proof.
  revert h. induction L as [|a L IH]; intros h Hout; cbn [fold_left].
  - auto.
  - destruct (IH (setitem h out (fst a) (snd a) (v a))) as [Hl [Hd Ho]].
    { unfold setitem. now rewrite length_upd. }
    unfold setitem in *. rewrite length_upd in Hl.
    split; [exact Hl|]. split.
    + rewrite Hd. unfold deref.
      f_equal.
      exact (nth_upd_same (upd (fst a) (upd (snd a) (fun _ => v a)))
                          out h [] Hout).
    + intros r Hr. rewrite (Ho r Hr). unfold deref.
      apply nth_upd_other. congruence.
Qed.
End FoldSet.

Lemma In_concat_mapi_from {A B : Type} (f : nat -> A -> list B) (l : list A)
      (k : nat) (a : A) (y : B) :
  In y (concat (mapi_from k f l)) <->
  exists idx, (idx < length l)%nat /\ In y (f (k + idx)%nat (nth idx l a)).
Proof.
  revert k. induction l as [|x t IH]; intros k; cbn [mapi_from concat].
  - split; [intros [] | intros [idx [H _]]; simpl in H; lia].
  - rewrite in_app_iff, IH. split.
    + intros [H | [idx [Hi H]]].
      * exists 0%nat. rewrite Nat.add_0_r. simpl. split; [lia | exact H].
      * exists (S idx). simpl. split; [lia|].
        now replace (k + S idx)%nat with (S k + idx)%nat by lia.
    + intros [[|idx] [Hi H]].
      * left. now rewrite Nat.add_0_r in H.
      * right. exists idx. simpl in Hi, H. split; [lia|].
        now replace (S k + idx)%nat with (k + S idx)%nat by lia.
Qed.

Lemma is_zero_spec (v : R) : is_zero v = true <-> v = 0.
Proof.
  unfold is_zero. destruct (Req_dec_T v 0); split; congruence.
Qed.

(** [where_zero] lists exactly the cells that hold zero. *)
Lemma In_where_zero (X : matrix) (i j : nat) :
  In (i, j) (where_zero X) <->
  (i < length X)%nat /\ (j < length (nth i X []))%nat /\ entry X i j = 0.
Proof.
  unfold where_zero, mapi. rewrite (In_concat_mapi_from _ _ _ []).
  split.
  - intros [idx [Hi H]]. cbn [Nat.add] in H.
    apply in_map_iff in H. destruct H as [j' [E H]].
    inversion E; subst. apply filter_In in H. destruct H as [Hs Hz].
    apply in_seq in Hs. apply is_zero_spec in Hz. repeat split; auto; lia.
  - intros [Hi [Hj Hz]]. exists i. split; [exact Hi|]. cbn [Nat.add].
    apply in_map. apply filter_In. split.
    + apply in_seq. lia.
    + now apply is_zero_spec.
Qed.

Lemma length_nth_post (X : matrix) (mixture : GaussianMixture)
      (K d i : nat) :
  mixture_shape K d mixture -> (i < length X)%nat ->
  length (nth i (fst (estep X mixture)) []) = K.
Proof.
  intros Hm Hi. rewrite nth_post_estep by trivial.
  rewrite length_post_row. now apply (length_f_row _ _ K d).
Qed.

Lemma fill_value_bigsum (X : matrix) (mixture : GaussianMixture)
      (K d i j : nat) :
  mixture_shape K d mixture -> (i < length X)%nat ->
  fill_value (fst (estep X mixture)) mixture i j =
  bigsum K (fun k => entry (fst (estep X mixture)) i k * entry (mu mixture) k j).
Proof.
  intros Hm Hi. unfold fill_value.
  rewrite (Rsum_map2_bigsum _ _ _ K 0 0).
  - apply bigsum_ext. intros k Hk. now rewrite nth_col.
  - now apply (length_nth_post X mixture K d).
  - rewrite length_col. apply Hm.
Qed.

Lemma deref_app_old (h : heap) (M : matrix) (r : ref) :
  (r < length h)%nat -> deref (h ++ [M]) r = deref h r.
Proof. intros H. unfold deref. now apply app_nth1. Qed.

Lemma deref_app_new (h : heap) (M : matrix) :
  deref (h ++ [M]) (length h) = M.
Proof. unfold deref. rewrite app_nth2, Nat.sub_diag by lia. reflexivity. Qed.

(** What [fill_matrix] leaves in the store and returns. *)
Lemma fill_matrix_h_spec (h : heap) (x : ref) (mixture : GaussianMixture)
      (n d K : nat) :
  (x < length h)%nat -> matrix_shape n d (deref h x) ->
  mixture_shape K d mixture ->
  let X := deref h x in
  let h' := fst (fill_matrix_h h x mixture) in
  let output := snd (fill_matrix_h h x mixture) in
  output = length h /\
  (forall r, (r < length h)%nat -> deref h' r = deref h r) /\
  matrix_shape n d (deref h' output) /\
  forall i j, (i < n)%nat -> (j < d)%nat ->
    (entry X i j <> 0 -> entry (deref h' output) i j = entry X i j) /\
    (entry X i j = 0 ->
     entry (deref h' output) i j =
     bigsum K (fun k => entry (fst (estep X mixture)) i k
                        * entry (mu mixture) k j)).
Proof.
  intros Hx HX Hm X h' output. subst h' output.
  unfold fill_matrix_h, np_copy. cbn [fst snd]. fold X.
  change (map (map exp) (map log_post_row (f_matrix X mixture)))
    with (fst (estep X mixture)).
  pose (v := fun ij : nat * nat =>
               fill_value (fst (estep X mixture)) mixture (fst ij) (snd ij)).
  assert (HnX : length X = n) by apply HX.
  assert (HrX : forall i, (i < n)%nat -> length (nth i X []) = d).
  { intros i Hi. apply Forall_nth_length; [apply HX | lia]. }
  pose proof (deref_fold_setitem v (where_zero X) (h ++ [X]) (length h)) as H.
  cbv zeta in H. destruct H as [Hl [Hd Ho]].
  { rewrite length_app. simpl. lia. }
  rewrite deref_app_new in Hd.
  destruct (entry_fold_set v (where_zero X) X n d HX) as [Hs Hc].
  { intros [i j] Hin. apply In_where_zero in Hin. destruct Hin as [Hi [Hj _]].
    cbn [fst snd]. rewrite HrX in Hj; lia. }
  unfold v in Hd, Ho. split; [reflexivity|]. split.
  { intros r Hr. rewrite Ho by (unfold ref in *; lia). now apply deref_app_old. }
  rewrite Hd. fold v. split; [exact Hs|].
  intros i j Hi Hj. destruct (Hc i j) as [Hyes Hno]. split.
  - intros Hnz. apply Hno. intros Hin. apply In_where_zero in Hin. tauto.
  - intros Hz. transitivity (v (i, j)).
    + apply Hyes. apply In_where_zero. rewrite HrX by lia.
      repeat split; trivial; lia.
    + unfold v. cbn [fst snd]. apply (fill_value_bigsum X mixture K d); trivial.
      lia.
Qed.

(** C8: the array returned by [fill_matrix] is a new one of the shape of
    [X]; its cells are those of [X] where [X] is not zero and
    [sum_k post[i,k] * mu[k,j]] where it is, with [post] that of the
    E-step on [X]; [X] and every other array of the store stay as they
    were. *)
Theorem fill_matrix_frame (h : heap) (x : ref) (mixture : GaussianMixture)
        (n d K : nat) :
  (x < length h)%nat -> matrix_shape n d (deref h x) ->
  mixture_shape K d mixture ->
  let X := deref h x in
  let h' := fst (fill_matrix_h h x mixture) in
  let output := snd (fill_matrix_h h x mixture) in
  output <> x /\
  deref h' x = X /\
  (forall r, (r < length h)%nat -> deref h' r = deref h r) /\
  matrix_shape n d (deref h' output) /\
  forall i j, (i < n)%nat -> (j < d)%nat ->
    (entry X i j <> 0 -> entry (deref h' output) i j = entry X i j) /\
    (entry X i j = 0 ->
     entry (deref h' output) i j =
     bigsum K (fun k => entry (fst (estep X mixture)) i k
                        * entry (mu mixture) k j)).
Proof.
  intros Hx HX Hm X h' output.
  destruct (fill_matrix_h_spec h x mixture n d K Hx HX Hm)
    as [Ho [Hold [Hs Hc]]].
  fold X h' output in Ho, Hold, Hs, Hc.
  split; [unfold ref in *; lia|]. split; [now apply Hold|].
  split; [exact Hold|]. split; [exact Hs | exact Hc].
Qed.

Lemma filter_none {A : Type} (b : A -> bool) (l : list A) :
  (forall a, In a l -> b a = false) -> filter b l = [].
Proof.
  induction l as [|a t IH]; intros H; [reflexivity|].
  simpl. rewrite (H a) by now left. apply IH. intros a' Ha'. apply H. now right.
Qed.

Lemma obs_dims_all_zero (x : vec) (d : nat) :
  (forall j, (j < d)%nat -> nth j x 0 = 0) -> obs_dims x d = [].
Proof.
  intros H. unfold obs_dims. apply filter_none. intros j Hj.
  apply in_seq in Hj. rewrite observed_spec.
  destruct (Req_dec_T (nth j x 0) 0) as [|Hne]; [reflexivity|].
  exfalso. apply Hne, H. lia.
Qed.

(** For a row without ratings a cell of [f] is the logarithm of the
    smoothed weight. *)
Lemma f_entry_unobserved (x m : vec) (v pk : R) (d : nat) :
  length x = d -> length m = d ->
  (forall j, (j < d)%nat -> nth j x 0 = 0) ->
  f_entry x m v pk = ln (pk + 1e-16).
Proof.
  intros Hx Hm Hz. rewrite (f_entry_formula x m v pk d Hx Hm).
  unfold dist_obs. rewrite (obs_dims_all_zero x d Hz). simpl.
  unfold Rdiv. rewrite Ropp_0, !Rmult_0_l. lra.
Qed.

Lemma Forall_nth_R (P : R -> Prop) (l : vec) (k : nat) :
  Forall P l -> (k < length l)%nat -> P (nth k l 0).
Proof.
  intros H Hk. rewrite Forall_forall in H. apply H. now apply nth_In.
Qed.

Lemma post_unobserved (X : matrix) (mixture : GaussianMixture)
      (n d K i k : nat) :
  matrix_shape n d X -> mixture_ok K d mixture -> (i < n)%nat ->
  (forall j, (j < d)%nat -> entry X i j = 0) -> (k < K)%nat ->
  entry (fst (estep X mixture)) i k =
  (nth k (p mixture) 0 + 1e-16)
  / bigsum K (fun k' => nth k' (p mixture) 0 + 1e-16).
Proof.
  intros [Hn HX] Hok Hi Hz Hk.
  destruct Hok as [Hsh [Hsum [Hp Hv]]].
  pose proof Hsh as [[HmuK Hmud] [HvK HpK]].
  assert (Hx : length (nth i X []) = d)
    by (apply Forall_nth_length; auto; lia).
  assert (Hf : forall k', (k' < K)%nat ->
                     exp (nth k' (f_row (nth i X []) mixture) 0) =
                     nth k' (p mixture) 0 + 1e-16).
  { intros k' Hk'. unfold f_row. rewrite (nth_f_cells _ _ _ _ K) by trivial.
    rewrite (f_entry_unobserved _ _ _ _ d); trivial.
    - apply exp_ln.
      assert (0 <= nth k' (p mixture) 0) by (apply Forall_nth_R; auto; lia).
      lra.
    - apply Forall_nth_length; auto; lia. }
  assert (HlenF : length (f_row (nth i X []) mixture) = K)
    by (now apply (length_f_row _ _ K d)).
  unfold entry. rewrite nth_post_estep by lia.
  rewrite post_row_softmax.
  - rewrite Hf by trivial. f_equal.
    rewrite (Rsum_map_bigsum exp _ 0), HlenF.
    apply bigsum_ext. intros k' Hk'. now apply Hf.
  - apply (f_row_nonempty _ _ K d); [exact Hsh | lia].
  - lia.
Qed.

(** C10: on a row of [X] without ratings the responsibilities are the
    normalized smoothed weights [(p[k] + 1e-16) / sum_k' (p[k'] + 1e-16)],
    whatever [mu] and [var] are, and [fill_matrix] writes
    [sum_k post[i,k] * mu[k,j]] into every cell of that row. *)
Theorem unobserved_row_posterior_and_fill (X : matrix)
        (mixture : GaussianMixture) (n d K i : nat) :
  matrix_shape n d X -> mixture_ok K d mixture -> (i < n)%nat ->
  (forall j, (j < d)%nat -> entry X i j = 0) ->
  let w := fun k => (nth k (p mixture) 0 + 1e-16)
                    / bigsum K (fun k' => nth k' (p mixture) 0 + 1e-16) in
  (forall k, (k < K)%nat -> entry (fst (estep X mixture)) i k = w k) /\
  (forall j, (j < d)%nat ->
     entry (fill_matrix X mixture) i j =
     bigsum K (fun k => entry (fst (estep X mixture)) i k
                        * entry (mu mixture) k j) /\
     entry (fill_matrix X mixture) i j =
     bigsum K (fun k => w k * entry (mu mixture) k j)).
Proof.
  intros HX Hok Hi Hz w.
  assert (Hpost : forall k, (k < K)%nat ->
                       entry (fst (estep X mixture)) i k = w k).
  { intros k Hk. now apply (post_unobserved X mixture n d K). }
  split; [exact Hpost|]. intros j Hj.
  assert (E : entry (fill_matrix X mixture) i j =
              bigsum K (fun k => entry (fst (estep X mixture)) i k
                                 * entry (mu mixture) k j)).
  { unfold fill_matrix.
    rewrite (surjective_pairing (fill_matrix_h [X] 0%nat mixture)).
    destruct (fill_matrix_h_spec [X] 0%nat mixture n d K) as [_ [_ [_ Hc]]];
      [simpl; lia | exact HX | apply Hok |].
    destruct (Hc i j Hi Hj) as [_ Hzero]. apply Hzero. now apply Hz. }
  split; [exact E|]. rewrite E. apply bigsum_ext. intros k Hk.
  now rewrite Hpost.
Qed.

(** * The likelihood along the loop *)

Lemma ln_le_minus_1 (t : R) : 0 < t -> ln t <= t - 1.
Proof.
  intros H. pose proof (exp_ineq1_le (ln t)) as E.
  rewrite exp_ln in E by trivial. lra.
Qed.

Lemma ln_div (a b : R) : 0 < a -> 0 < b -> ln (a / b) = ln a - ln b.
Proof.
  intros Ha Hb. unfold Rdiv.
  assert (0 < / b) by now apply Rinv_0_lt_compat.
  rewrite ln_mult, ln_Rinv by trivial. lra.
Qed.

Lemma bigsum_lin2 (n : nat) (a b : R) (F G : nat -> R) :
  bigsum n (fun i => a * F i + b * G i) = a * bigsum n F + b * bigsum n G.
Proof. now rewrite bigsum_plus, !bigsum_scal. Qed.

Lemma bigsum_pos (n : nat) (F : nat -> R) :
  (0 < n)%nat -> (forall i, (i < n)%nat -> 0 < F i) -> 0 < bigsum n F.
Proof.
  intros Hn HF. destruct n as [|n]; [lia|].
  unfold bigsum. rewrite <- cons_seq. cbn [map Rsum fold_right].
  fold (Rsum (map F (seq 1 n))).
  assert (0 < F 0%nat) by (apply HF; lia).
  assert (0 <= Rsum (map F (seq 1 n))).
  { rewrite <- (Rsum_map_zero (fun _ => 0) (seq 1 n)) by reflexivity.
    apply Rsum_map_le. intros i Hi. apply in_seq in Hi.
    apply Rlt_le, HF. lia. }
  lra.
Qed.

(** A sum of non-negative terms that is zero has only zero terms. *)
Lemma Rsum_nonneg_zero {A : Type} (f : A -> R) (l : list A) :
  (forall a, In a l -> 0 <= f a) -> Rsum (map f l) = 0 ->
  forall a, In a l -> f a = 0.
Proof.
  induction l as [|b t IH]; intros Hpos Hz a Hin; [destruct Hin|].
  cbn [map Rsum fold_right] in Hz. fold (Rsum (map f t)) in Hz.
  assert (0 <= f b) by (apply Hpos; now left).
  assert (0 <= Rsum (map f t)).
  { rewrite <- (Rsum_map_zero (fun _ => 0) t) by reflexivity.
    apply Rsum_map_le. intros c Hc. apply Hpos. now right. }
  destruct Hin as [<-|Hin]; [lra|].
  apply IH; auto. - intros c Hc. apply Hpos. now right. - lra.
Qed.

Lemma bigsum_nonneg_zero (n : nat) (F : nat -> R) :
  (forall i, (i < n)%nat -> 0 <= F i) -> bigsum n F = 0 ->
  forall i, (i < n)%nat -> F i = 0.
Proof.
  intros Hpos Hz i Hi. apply (Rsum_nonneg_zero F (seq 0 n)); trivial.
  - intros a Ha. apply in_seq in Ha. apply Hpos. lia.
  - apply in_seq. lia.
Qed.

(** Jensen's inequality for the logarithm, at the softmax weights of
    [a]: moving from [a] to [b] raises the log-normalizer by at least the
    weighted mean of [b - a]. *)
Lemma softmax_jensen (K : nat) (a b : nat -> R) :
  (0 < K)%nat ->
  bigsum K (fun k => exp (a k) / bigsum K (fun k' => exp (a k'))
                     * (b k - a k))
  <= ln (bigsum K (fun k => exp (b k))) - ln (bigsum K (fun k => exp (a k))).
Proof.
  intros HK.
  set (Sa := bigsum K (fun k => exp (a k))).
  set (Sb := bigsum K (fun k => exp (b k))).
  assert (HSa : 0 < Sa) by (apply bigsum_pos; auto; intros; apply exp_pos).
  assert (HSb : 0 < Sb) by (apply bigsum_pos; auto; intros; apply exp_pos).
  set (c := ln Sb - ln Sa).
  assert (Hc : exp (- c) = Sa / Sb).
  { unfold c. replace (- (ln Sb - ln Sa)) with (ln Sa - ln Sb) by lra.
    unfold Rminus. rewrite exp_plus, exp_Ropp, !exp_ln by trivial.
    reflexivity. }
  assert (Hle : bigsum K (fun k => exp (a k) / Sa * ((b k - a k) - c))
                <= bigsum K (fun k => exp (a k) / Sa
                                      * (exp (b k - a k - c) - 1))).
  { apply bigsum_le. intros k Hk. apply Rmult_le_compat_l.
    - apply Rlt_le, Rdiv_lt_0_compat; [apply exp_pos | exact HSa].
    - pose proof (exp_ineq1_le (b k - a k - c)). lra. }
  assert (Hw : bigsum K (fun k => exp (a k) / Sa) = 1).
  { rewrite (bigsum_ext _ _ (fun k => / Sa * exp (a k))).
    - rewrite bigsum_scal. fold Sa. field. lra.
    - intros k _. unfold Rdiv. apply Rmult_comm. }
  rewrite (bigsum_ext _ (fun k => exp (a k) / Sa * ((b k - a k) - c))
             (fun k => 1 * (exp (a k) / Sa * (b k - a k))
                       + (- c) * (exp (a k) / Sa))) in Hle
    by (intros; lra).
  rewrite bigsum_lin2, Hw in Hle.
  rewrite (bigsum_ext _ (fun k => exp (a k) / Sa * (exp (b k - a k - c) - 1))
             (fun k => (exp (- c) / Sa) * exp (b k)
                       + (- 1) * (exp (a k) / Sa))) in Hle.
  2:{ intros k _.
      replace (b k - a k - c) with (b k + (- a k + - c)) by lra.
      rewrite !exp_plus, (exp_Ropp (a k)). field.
      split; [lra | apply Rgt_not_eq, exp_pos]. }
  rewrite bigsum_lin2, Hw in Hle. fold Sb in Hle. rewrite Hc in Hle.
  replace (Sa / Sb / Sa * Sb + -1 * 1) with 0 in Hle by (field; lra).
  lra.
Qed.

(** The weighted mean minimizes the weighted squared distance; keeping
    the old mean changes nothing. *)
Lemma mean_improves (n : nat) (u xs : nat -> R) (m m' : R) :
  (1 <= bigsum n u -> m' = bigsum n (fun i => u i * xs i) / bigsum n u) ->
  (bigsum n u < 1 -> m' = m) ->
  bigsum n (fun i => u i * (xs i - m') ^ 2)
  <= bigsum n (fun i => u i * (xs i - m) ^ 2).
Proof.
  intros Hge Hlt.
  destruct (Rle_lt_dec 1 (bigsum n u)) as [H1|H1].
  - set (W := bigsum n u) in *. set (S := bigsum n (fun i => u i * xs i)) in *.
    assert (HS : S = m' * W) by (rewrite (Hge H1); field; lra).
    assert (E : bigsum n (fun i => u i * (xs i - m) ^ 2)
                = bigsum n (fun i => u i * (xs i - m') ^ 2)
                  + W * (m' - m) ^ 2).
    { transitivity (bigsum n (fun i => 1 * (u i * (xs i - m') ^ 2)
                      + 1 * ((2 * (m' - m)) * (u i * xs i)
                             + (- (m' - m) * (m + m')) * u i))).
      - apply bigsum_ext. intros i _. ring.
      - rewrite bigsum_lin2, bigsum_lin2. fold W S. rewrite HS. ring. }
    rewrite E. assert (0 <= W * (m' - m) ^ 2) by (apply Rmult_le_pos; [lra | apply pow2_ge_0]).
    lra.
  - rewrite (Hlt H1). lra.
Qed.

(** The floored variance does not lower the Gaussian part of the
    objective, when the old variance is not below the floor. *)
Lemma var_improves (A B v vmin : R) :
  0 < vmin -> vmin <= v -> 0 <= A -> 0 <= B -> (B = 0 -> A = 0) ->
  let pv := A / B in
  let v' := if Rge_dec pv vmin then pv else vmin in
  - A / (2 * v) - (B / 2) * ln v <= - A / (2 * v') - (B / 2) * ln v'.
Proof.
  intros Hvmin Hv HA HB HBA pv v'.
  destruct (Req_dec_T B 0) as [HB0|HB0].
  - rewrite (HBA HB0), HB0. unfold Rdiv. rewrite Ropp_0, !Rmult_0_l. lra.
  - assert (HBpos : 0 < B) by lra.
    assert (Hpv : 0 <= pv) by (apply Rle_mult_inv_pos; trivial).
    assert (EA : A = pv * B) by (unfold pv; field; lra).
    assert (Hv' : 0 < v').
    { unfold v'. destruct (Rge_dec pv vmin); lra. }
    assert (Hcore : - pv / v - ln v <= - pv / v' - ln v').
    { unfold v'. destruct (Rge_dec pv vmin) as [Hge|Hlt].
      - assert (Hpvpos : 0 < pv) by lra.
        pose proof (ln_le_minus_1 (pv / v)) as Hl.
        rewrite ln_div in Hl by lra.
        assert (0 < pv / v) by (apply Rdiv_lt_0_compat; lra).
        replace (- pv / pv) with (-1) by (field; lra).
        replace (- pv / v) with (- (pv / v)) by (field; lra). lra.
      - assert (Hlt' : pv < vmin) by lra.
        pose proof (ln_le_minus_1 (vmin / v)) as Hl.
        rewrite ln_div in Hl by lra.
        assert (0 < vmin / v) by (apply Rdiv_lt_0_compat; lra).
        assert (Hq : pv / vmin - pv / v <= 1 - vmin / v).
        { replace (pv / vmin - pv / v) with ((pv / vmin) * ((v - vmin) / v))
            by (field; lra).
          replace (1 - vmin / v) with (1 * ((v - vmin) / v)) by (field; lra).
          apply Rmult_le_compat_r.
          - apply Rle_mult_inv_pos; lra.
          - apply (Rmult_le_reg_r vmin); trivial.
            replace (pv / vmin * vmin) with pv by (field; lra). lra. }
        replace (- pv / vmin) with (- (pv / vmin)) by (field; lra).
        replace (- pv / v) with (- (pv / v)) by (field; lra). lra. }
    replace (- A / (2 * v) - B / 2 * ln v)
      with ((B / 2) * (- pv / v - ln v)) by (rewrite EA; field; lra).
    replace (- A / (2 * v') - B / 2 * ln v')
      with ((B / 2) * (- pv / v' - ln v')) by (rewrite EA; field; lra).
    apply Rmult_le_compat_l; lra.
Qed.

(** One term of the weight part: the column mean [q = N / n] is within
    [n * 1e-16] of the best weight for [log(. + 1e-16)]. *)
Lemma weight_term_bound (N n pk q : R) :
  0 < n -> 0 <= N -> q = N / n -> 0 <= pk ->
  N * (ln (pk + 1e-16) - ln (q + 1e-16)) <= n * ((pk - q) + 1e-16).
Proof.
  intros Hn HN Hq Hp.
  assert (Hq0 : 0 <= q) by (rewrite Hq; apply Rle_mult_inv_pos; trivial).
  assert (EN : N = n * q) by (rewrite Hq; field; lra).
  pose proof (ln_le_minus_1 ((pk + 1e-16) / (q + 1e-16))) as Hl.
  rewrite ln_div in Hl by lra.
  assert (0 < (pk + 1e-16) / (q + 1e-16)) by (apply Rdiv_lt_0_compat; lra).
  specialize (Hl H).
  assert (Hfrac : q * ((pk + 1e-16) / (q + 1e-16) - 1) <= (pk - q) + 1e-16).
  { apply (Rmult_le_reg_r (q + 1e-16)); [lra|].
    replace (q * ((pk + 1e-16) / (q + 1e-16) - 1) * (q + 1e-16))
      with (q * (pk - q)) by (field; lra).
    nra. }
  rewrite EN.
  apply Rle_trans with (n * (q * ((pk + 1e-16) / (q + 1e-16) - 1))).
  - rewrite Rmult_assoc. apply Rmult_le_compat_l; [lra|].
    apply Rmult_le_compat_l; lra.
  - apply Rmult_le_compat_l; lra.
Qed.

Section EMBound.
Variables n d K : nat.
Variables x o w m m' : nat -> nat -> R.
Variables v v' q q' : nat -> R.
Variable vmin : R.

Hypothesis Hn : (0 < n)%nat.
Hypothesis HK : (0 < K)%nat.
Hypothesis Ho : forall i j, (i < n)%nat -> (j < d)%nat ->
                            o i j = 0 \/ o i j = 1.
Hypothesis Hw : forall i k, (i < n)%nat -> (k < K)%nat ->
                            w i k = softmax K (logdens d o x m v q) i k.
Hypothesis Hvmin : 0 < vmin.
Hypothesis Hv : forall k, (k < K)%nat -> vmin <= v k.
Hypothesis Hq : forall k, (k < K)%nat -> 0 <= q k.
Hypothesis Hqsum : bigsum K q <= 1.
Hypothesis Hm'ge : forall k j, (k < K)%nat -> (j < d)%nat ->
  1 <= bigsum n (fun i => w i k * o i j) ->
  m' k j = bigsum n (fun i => w i k * x i j * o i j)
           / bigsum n (fun i => w i k * o i j).
Hypothesis Hm'lt : forall k j, (k < K)%nat -> (j < d)%nat ->
  bigsum n (fun i => w i k * o i j) < 1 -> m' k j = m k j.
Hypothesis Hv' : forall k, (k < K)%nat ->
  v' k = if Rge_dec (bigsum n (fun i => w i k * sqdist d o x m' i k)
                     / bigsum n (fun i => w i k * nobs d o i)) vmin
         then bigsum n (fun i => w i k * sqdist d o x m' i k)
              / bigsum n (fun i => w i k * nobs d o i)
         else vmin.
Hypothesis Hq' : forall k, (k < K)%nat ->
  q' k = bigsum n (fun i => w i k) / INR n.

Lemma w_pos (i k : nat) : (i < n)%nat -> (k < K)%nat -> 0 < w i k.
Proof.
  intros Hi Hk. rewrite Hw by trivial. unfold softmax.
  apply Rdiv_lt_0_compat; [apply exp_pos|].
  apply bigsum_pos; trivial. intros. apply exp_pos.
Qed.

Lemma w_row_sum (i : nat) : (i < n)%nat -> bigsum K (fun k => w i k) = 1.
Proof.
  intros Hi.
  set (S := bigsum K (fun k' => exp (logdens d o x m v q i k'))).
  assert (HS : 0 < S) by (apply bigsum_pos; trivial; intros; apply exp_pos).
  rewrite (bigsum_ext _ _ (fun k => / S * exp (logdens d o x m v q i k))).
  - rewrite bigsum_scal. fold S. field. lra.
  - intros k Hk. rewrite Hw by trivial. unfold softmax. fold S.
    unfold Rdiv. apply Rmult_comm.
Qed.

Lemma o_nonneg (i j : nat) : (i < n)%nat -> (j < d)%nat -> 0 <= o i j.
Proof. intros Hi Hj. destruct (Ho i j Hi Hj) as [-> | ->]; lra. Qed.

Lemma sqdist_nonneg (mm : nat -> nat -> R) (i k : nat) :
  (i < n)%nat -> 0 <= sqdist d o x mm i k.
Proof.
  intros Hi. apply bigsum_nonneg. intros j Hj.
  apply Rmult_le_pos; [now apply o_nonneg | apply pow2_ge_0].
Qed.

Lemma nobs_nonneg (i : nat) : (i < n)%nat -> 0 <= nobs d o i.
Proof. intros Hi. apply bigsum_nonneg. intros j Hj. now apply o_nonneg. Qed.

Local Abbreviation A := (wsum_sqdist n d o x w).
Local Abbreviation B := (wsum_nobs n d o w).
Local Abbreviation N := (wsum n w).

(** The new means do not raise the weighted squared distance. *)
Lemma means_improve (k : nat) : (k < K)%nat -> A m' k <= A m k.
Proof.
  intros Hk. unfold wsum_sqdist, sqdist.
  assert (E : forall mm : nat -> nat -> R,
             bigsum n (fun i => w i k
                        * bigsum d (fun j => o i j * (x i j - mm k j) ^ 2))
             = bigsum d (fun j =>
                 bigsum n (fun i => (w i k * o i j) * (x i j - mm k j) ^ 2))).
  { intros mm. rewrite <- bigsum_swap. apply bigsum_ext. intros i _.
    rewrite <- bigsum_scal. apply bigsum_ext. intros j _. ring. }
  rewrite !E. apply bigsum_le. intros j Hj.
  apply mean_improves.
  - intros H1. rewrite (Hm'ge k j Hk Hj H1). f_equal.
    apply bigsum_ext. intros i _. ring.
  - intros H1. now apply Hm'lt.
Qed.

Lemma A_nonneg (mm : nat -> nat -> R) (k : nat) :
  (k < K)%nat -> 0 <= A mm k.
Proof.
  intros Hk. apply bigsum_nonneg. intros i Hi.
  apply Rmult_le_pos; [apply Rlt_le; now apply w_pos | now apply sqdist_nonneg].
Qed.

Lemma B_nonneg (k : nat) : (k < K)%nat -> 0 <= B k.
Proof.
  intros Hk. apply bigsum_nonneg. intros i Hi.
  apply Rmult_le_pos; [apply Rlt_le; now apply w_pos | now apply nobs_nonneg].
Qed.

Lemma B_zero_A_zero (mm : nat -> nat -> R) (k : nat) :
  (k < K)%nat -> B k = 0 -> A mm k = 0.
Proof.
  intros Hk HB. apply bigsum_zero. intros i Hi.
  assert (Hz : w i k * nobs d o i = 0).
  { apply (bigsum_nonneg_zero n (fun i => w i k * nobs d o i)); trivial.
    intros i' Hi'. apply Rmult_le_pos;
      [apply Rlt_le; now apply w_pos | now apply nobs_nonneg]. }
  pose proof (w_pos i k Hi Hk) as Hwp.
  assert (Hno : nobs d o i = 0) by nra.
  assert (Hd : sqdist d o x mm i k = 0).
  { apply bigsum_zero. intros j Hj.
    rewrite (bigsum_nonneg_zero d (fun j => o i j)) ; trivial; [ring|].
    intros j' Hj'. now apply o_nonneg. }
  rewrite Hd. ring.
Qed.

Lemma v'_pos (k : nat) : (k < K)%nat -> vmin <= v' k.
Proof.
  intros Hk. rewrite (Hv' k Hk).
  destruct (Rge_dec _ vmin); lra.
Qed.

Lemma N_nonneg (k : nat) : (k < K)%nat -> 0 <= N k.
Proof.
  intros Hk. apply bigsum_nonneg. intros i Hi. apply Rlt_le. now apply w_pos.
Qed.

Lemma q'_sum : bigsum K q' = 1.
Proof.
  rewrite (bigsum_ext _ _ (fun k => / INR n * bigsum n (fun i => w i k))).
  2:{ intros k Hk. rewrite (Hq' k Hk). unfold Rdiv. apply Rmult_comm. }
  rewrite bigsum_scal, <- bigsum_swap.
  rewrite (bigsum_ext _ _ (fun _ => 1)) by (intros; now apply w_row_sum).
  rewrite bigsum_const. field. apply not_0_INR. lia.
Qed.

(** The expected gain of component [k], split into its parts. *)
Lemma gain_split (k : nat) :
  bigsum n (fun i => w i k * (logdens d o x m' v' q' i k
                              - logdens d o x m v q i k))
  = (- A m' k / (2 * v' k) - (B k / 2) * ln (v' k))
    - (- A m k / (2 * v k) - (B k / 2) * ln (v k))
    + N k * (ln (q' k + 1e-16) - ln (q k + 1e-16)).
Proof.
  transitivity
    (bigsum n (fun i =>
       (- / (2 * v' k)) * (w i k * sqdist d o x m' i k)
       + 1 * ((/ (2 * v k)) * (w i k * sqdist d o x m i k)
              + 1 * ((- (ln (v' k) - ln (v k)) / 2)
                     * (w i k * nobs d o i)
                     + (ln (q' k + 1e-16) - ln (q k + 1e-16))
                       * w i k)))).
  - apply bigsum_ext. intros i _. unfold logdens, Rdiv. ring.
  - rewrite !bigsum_lin2. fold (A m' k) (A m k) (B k) (N k).
    unfold Rdiv. ring.
Qed.

Lemma gain_lower_bound (k : nat) :
  (k < K)%nat ->
  - (INR n * ((q k - q' k) + 1e-16))
  <= bigsum n (fun i => w i k * (logdens d o x m' v' q' i k
                                 - logdens d o x m v q i k)).
Proof.
  intros Hk. rewrite gain_split.
  assert (Hvk : vmin <= v k) by now apply Hv.
  (* variance, at the new means *)
  assert (Hvar : - A m' k / (2 * v k) - (B k / 2) * ln (v k)
                 <= - A m' k / (2 * v' k) - (B k / 2) * ln (v' k)).
  { rewrite (Hv' k Hk). fold (A m' k) (B k).
    apply var_improves; trivial.
    - now apply A_nonneg.
    - now apply B_nonneg.
    - now apply B_zero_A_zero. }
  (* means, at the old variance *)
  assert (Hmean : - A m k / (2 * v k) <= - A m' k / (2 * v k)).
  { pose proof (means_improve k Hk) as H.
    assert (0 < / (2 * v k)) by (apply Rinv_0_lt_compat; lra).
    unfold Rdiv. nra. }
  (* weights *)
  assert (Hwt : N k * (ln (q k + 1e-16) - ln (q' k + 1e-16))
                <= INR n * ((q k - q' k) + 1e-16)).
  { apply weight_term_bound.
    - apply lt_0_INR. lia.
    - now apply N_nonneg.
    - now apply Hq'.
    - now apply Hq. }
  lra.
Qed.

(** One E-step and M-step lower the log-likelihood by at most
    [n * K * 1e-16]. *)
Lemma em_loglik_bound :
  loglik n K (logdens d o x m v q) - INR n * INR K * 1e-16
  <= loglik n K (logdens d o x m' v' q').
Proof.
  unfold loglik.
  set (F := logdens d o x m v q). set (F' := logdens d o x m' v' q').
  assert (HJ : bigsum n (fun i => bigsum K (fun k => w i k * (F' i k - F i k)))
               <= bigsum n (fun i => ln (bigsum K (fun k => exp (F' i k)))
                                     - ln (bigsum K (fun k => exp (F i k))))).
  { apply bigsum_le. intros i Hi.
    rewrite (bigsum_ext _ _ (fun k => exp (F i k)
                               / bigsum K (fun k' => exp (F i k'))
                               * (F' i k - F i k))).
    - now apply softmax_jensen.
    - intros k Hk. now rewrite Hw. }
  rewrite bigsum_swap in HJ.
  assert (HQ : bigsum K (fun k => - (INR n * ((q k - q' k) + 1e-16)))
               <= bigsum K (fun k => bigsum n (fun i =>
                              w i k * (F' i k - F i k)))).
  { apply bigsum_le. intros k Hk. now apply gain_lower_bound. }
  rewrite (bigsum_ext _ (fun k => - (INR n * ((q k - q' k) + 1e-16)))
             (fun k => (- INR n) * q k
                       + 1 * (INR n * q' k + (- INR n * 1e-16) * 1)))
    in HQ by (intros; ring).
  rewrite !bigsum_lin2, q'_sum, bigsum_const in HQ.
  rewrite (bigsum_ext _ (fun i => ln (bigsum K (fun k => exp (F' i k)))
                                  - ln (bigsum K (fun k => exp (F i k))))
             (fun i => 1 * ln (bigsum K (fun k => exp (F' i k)))
                       + (-1) * ln (bigsum K (fun k => exp (F i k)))))
    in HJ by (intros; ring).
  rewrite bigsum_lin2 in HJ.
  assert (0 <= INR n) by apply pos_INR.
  nra.
Qed.
End EMBound.

(** ** From arrays to index functions *)

Lemma obs_ind_observed (X : matrix) (i j : nat) :
  obs_ind X i j = if observed (nth i X []) j then 1 else 0.
Proof.
  unfold obs_ind, observed, entry. now destruct (is_zero _).
Qed.

Lemma dist_obs_sqdist (X M : matrix) (d i k : nat) :
  dist_obs (nth i X []) (nth k M []) d = sqdist d (obs_ind X) (entry X) (entry M) i k.
Proof.
  unfold dist_obs, obs_dims, sqdist. rewrite Rsum_map_filter.
  apply bigsum_ext. intros j _. rewrite obs_ind_observed. unfold entry.
  destruct (observed (nth i X []) j); ring.
Qed.

Lemma count_obs_nobs (X : matrix) (d i : nat) :
  INR (length (obs_dims (nth i X []) d)) = nobs d (obs_ind X) i.
Proof.
  unfold obs_dims, nobs. rewrite INR_length_filter.
  apply bigsum_ext. intros j _. now rewrite obs_ind_observed.
Qed.

Lemma entry_f_matrix_f_at (X : matrix) (mixture : GaussianMixture)
      (n d K i k : nat) :
  matrix_shape n d X -> mixture_shape K d mixture ->
  (i < n)%nat -> (k < K)%nat ->
  entry (f_matrix X mixture) i k = f_at d X mixture i k.
Proof.
  intros [Hn HX] Hm Hi Hk.
  rewrite (entry_f_matrix X mixture K d) by (auto; lia).
  rewrite (f_entry_formula _ _ _ _ d).
  - unfold f_at, logdens, var_at, p_at.
    now rewrite dist_obs_sqdist, count_obs_nobs.
  - apply Forall_nth_length; auto; lia.
  - destruct Hm as [[H1 H2] _]. apply Forall_nth_length; auto; lia.
Qed.

Lemma nth_f_row_f_at (X : matrix) (mixture : GaussianMixture)
      (n d K i k : nat) :
  matrix_shape n d X -> mixture_shape K d mixture ->
  (i < n)%nat -> (k < K)%nat ->
  nth k (f_row (nth i X []) mixture) 0 = f_at d X mixture i k.
Proof.
  intros HX Hm Hi Hk.
  rewrite <- (entry_f_matrix_f_at X mixture n d K) by trivial.
  unfold entry, f_matrix.
  rewrite (nth_indep (map _ X) [] ((fun x => f_row x mixture) []))
    by (rewrite length_map; destruct HX; lia).
  now rewrite (map_nth (fun x => f_row x mixture)).
Qed.

Lemma Rsum_exp_f_row (X : matrix) (mixture : GaussianMixture)
      (n d K i : nat) :
  matrix_shape n d X -> mixture_shape K d mixture -> (i < n)%nat ->
  Rsum (map exp (f_row (nth i X []) mixture)) =
  bigsum K (fun k => exp (f_at d X mixture i k)).
Proof.
  intros HX Hm Hi.
  rewrite (Rsum_map_bigsum exp _ 0), (length_f_row _ _ K d) by trivial.
  apply bigsum_ext. intros k Hk.
  now rewrite (nth_f_row_f_at X mixture n d K).
Qed.

(** The responsibilities are the softmax of [f]. *)
Lemma entry_post_softmax (X : matrix) (mixture : GaussianMixture)
      (n d K i k : nat) :
  (0 < K)%nat -> matrix_shape n d X -> mixture_shape K d mixture ->
  (i < n)%nat -> (k < K)%nat ->
  entry (fst (estep X mixture)) i k = softmax K (f_at d X mixture) i k.
Proof.
  intros HK HX Hm Hi Hk. unfold entry, softmax.
  rewrite nth_post_estep by (destruct HX; lia).
  rewrite post_row_softmax.
  - rewrite (nth_f_row_f_at X mixture n d K) by trivial.
    now rewrite (Rsum_exp_f_row X mixture n d K).
  - now apply (f_row_nonempty _ _ K d).
  - now rewrite (length_f_row _ _ K d).
Qed.

(** The cost is the log-likelihood of [f]. *)
Lemma snd_estep_loglik (X : matrix) (mixture : GaussianMixture)
      (n d K : nat) :
  (0 < K)%nat -> matrix_shape n d X -> mixture_shape K d mixture ->
  snd (estep X mixture) = loglik n K (f_at d X mixture).
Proof.
  intros HK HX Hm. rewrite snd_estep. unfold f_matrix. rewrite map_map.
  rewrite (Rsum_map_bigsum _ X []). destruct HX as [Hn HX0]. rewrite Hn.
  unfold loglik. apply bigsum_ext. intros i Hi.
  rewrite ll_row by (now apply (f_row_nonempty _ _ K d)).
  rewrite logsumexp_ln by (now apply (f_row_nonempty _ _ K d)).
  now rewrite (Rsum_exp_f_row X mixture n d K) by (trivial; now split).
Qed.

Lemma sq_resid_row (x mk x2 : vec) (d : nat) :
  length x = d -> length mk = d -> length x2 = d ->
  Rsum (map (fun t => t ^ 2) (map2 Rmult (map2 Rminus x mk) x2)) =
  bigsum d (fun j => ((nth j x 0 - nth j mk 0) * nth j x2 0) ^ 2).
Proof.
  intros Hx Hm H2.
  assert (Hl1 : length (map2 Rminus x mk) = d)
    by (rewrite length_map2; lia).
  rewrite (Rsum_map_bigsum _ _ 0), length_map2, Hl1, H2, Nat.min_id.
  apply bigsum_ext. intros j Hj.
  rewrite (nth_map2 Rmult _ _ _ 0 0) by lia.
  now rewrite (nth_map2 Rminus _ _ _ 0 0) by lia.
Qed.

Lemma var_num_bigsum (X post M : matrix) (n d k : nat) :
  matrix_shape n d X -> length post = n -> length (nth k M []) = d ->
  var_num X post (nth k M []) k =
  bigsum n (fun i => entry post i k
                     * sqdist d (obs_ind X) (entry X) (entry M) i k).
Proof.
  intros HX Hp Hm. pose proof (X2_of_shape X n d HX) as HX2.
  destruct HX as [Hn HXr]. destruct HX2 as [Hn2 HX2r].
  unfold var_num.
  rewrite (Rsum_map2_bigsum _ _ _ n 0 0).
  2:{ now rewrite length_col. }
  2:{ unfold sq_resid. rewrite length_map2. lia. }
  apply bigsum_ext. intros i Hi. rewrite nth_col. f_equal.
  unfold sq_resid. rewrite (nth_map2 _ _ _ _ [] []) by lia.
  rewrite (sq_resid_row _ _ _ d); trivial.
  2,3: apply Forall_nth_length; auto; lia.
  unfold sqdist. apply bigsum_ext. intros j Hj.
  fold (entry X i j) (entry M k j) (entry (X2_of X) i j).
  rewrite entry_X2_of.
  destruct (obs_ind_cases X i j) as [[-> _]|[-> _]]; ring.
Qed.

Lemma var_den_bigsum (X post : matrix) (n d k : nat) :
  (0 < n)%nat -> matrix_shape n d X -> length post = n ->
  var_den X post k =
  bigsum n (fun i => entry post i k * nobs d (obs_ind X) i).
Proof.
  intros Hn HX Hp. unfold var_den.
  rewrite (ncols_shape (X2_of X) n d) by (trivial; now apply X2_of_shape).
  fold (bigsum d (fun j => Rsum (map2 Rmult (col k post) (col j (X2_of X))))).
  rewrite (bigsum_ext _ _ (fun j => bigsum n (fun i =>
                             entry post i k * obs_ind X i j))).
  2:{ intros j Hj. rewrite (Rsum_map2_bigsum _ _ _ n 0 0).
      - apply bigsum_ext. intros i Hi. now rewrite !nth_col, entry_X2_of.
      - now rewrite length_col.
      - rewrite length_col. unfold X2_of. rewrite length_map. apply HX. }
  rewrite <- bigsum_swap. apply bigsum_ext. intros i Hi.
  unfold nobs. now rewrite bigsum_scal.
Qed.

Lemma entry_mu_hat_cases (X post : matrix) (mixture : GaussianMixture)
      (n d K k j : nat) :
  (0 < n)%nat -> matrix_shape n d X -> matrix_shape n K post ->
  matrix_shape K d (mu mixture) -> (k < K)%nat -> (j < d)%nat ->
  (1 <= bigsum n (fun i => entry post i k * obs_ind X i j) ->
   entry (mu_hat X post mixture) k j =
   bigsum n (fun i => entry post i k * entry X i j * obs_ind X i j)
   / bigsum n (fun i => entry post i k * obs_ind X i j))
  /\
  (bigsum n (fun i => entry post i k * obs_ind X i j) < 1 ->
   entry (mu_hat X post mixture) k j = entry (mu mixture) k j).
Proof.
  intros Hn HX Hpost Hmu Hk Hj.
  rewrite (entry_mu_hat X post mixture K d)
    by (auto; eapply ncols_shape; eauto).
  unfold mu_h_cell.
  rewrite (mean_den_bigsum X post n), (mean_num_bigsum X post n)
    by (apply HX || apply Hpost).
  destruct (Rge_dec _ 1) as [Hge|Hlt]; split; intros H; try reflexivity; lra.
Qed.

Lemma Forall_from_nth (P : R -> Prop) (l : vec) :
  (forall k, (k < length l)%nat -> P (nth k l 0)) -> Forall P l.
Proof.
  intros H. apply Forall_forall. intros a Ha.
  destruct (In_nth _ _ 0 Ha) as [k [Hk <-]]. now apply H.
Qed.

Lemma post_shape (X : matrix) (mixture : GaussianMixture) (n d K : nat) :
  matrix_shape n d X -> mixture_shape K d mixture ->
  matrix_shape n K (fst (estep X mixture)).
Proof.
  intros [Hn HX] Hm. rewrite fst_estep. unfold f_matrix. split.
  - now rewrite !length_map.
  - rewrite map_map. apply Forall_map, Forall_forall. intros x _.
    rewrite length_post_row. now apply (length_f_row _ _ K d).
Qed.

Lemma post_rows_sum (X : matrix) (mixture : GaussianMixture) (d K : nat) :
  (0 < K)%nat -> mixture_shape K d mixture ->
  Forall (fun r => Rsum r = 1) (fst (estep X mixture)).
Proof.
  intros HK Hm. rewrite fst_estep. unfold f_matrix. rewrite map_map.
  apply Forall_map, Forall_forall. intros x _.
  apply post_row_sum. now apply (f_row_nonempty _ _ K d).
Qed.

Lemma entry_post_pos (X : matrix) (mixture : GaussianMixture)
      (n d K i k : nat) :
  matrix_shape n d X -> mixture_shape K d mixture ->
  (i < n)%nat -> (k < K)%nat -> 0 < entry (fst (estep X mixture)) i k.
Proof.
  intros [Hn HX] Hm Hi Hk. unfold entry. rewrite nth_post_estep by lia.
  apply post_row_pos. now rewrite (length_f_row _ _ K d).
Qed.

Lemma length_var_hat (X post mu_h : matrix) (mixture : GaussianMixture)
      (min_variance : R) :
  length (var_hat X post mu_h mixture min_variance) = length (var mixture).
Proof. unfold var_hat. apply length_mapi. Qed.

(** One E-step and M-step keep the shape and the invariant of the
    mixture and put every variance at or above the floor. *)
Lemma em_step_ok (X : matrix) (mixture : GaussianMixture) (n d K : nat) :
  (0 < n)%nat -> (0 < K)%nat -> matrix_shape n d X ->
  mixture_shape K d mixture ->
  mixture_ok K d (em_step X mixture) /\ above_floor (em_step X mixture).
Proof.
  intros Hn HK HX Hm.
  pose proof (post_shape X mixture n d K HX Hm) as Hpost.
  pose proof Hm as [Hmu [HvK HpK]].
  assert (HKc : ncols (fst (estep X mixture)) = K)
    by (eapply ncols_shape; eauto).
  assert (Hfloor : above_floor (em_step X mixture)).
  { unfold above_floor, em_step. cbn [mstep var].
    apply Forall_from_nth. intros k Hk. rewrite length_var_hat in Hk.
    rewrite (nth_var_hat _ _ _ _ _ K) by (trivial; lia).
    apply var_h_cell_floor. }
  split; [|exact Hfloor].
  unfold above_floor in Hfloor. unfold em_step in *. cbn [mstep var] in Hfloor.
  unfold mixture_ok, mixture_shape. cbn [mstep mu var p].
  split; [split; [|split]|split; [|split]].
  - apply mu_hat_shape, Hmu.
  - now rewrite length_var_hat.
  - now apply (length_p_hat _ n K).
  - apply (Rsum_p_hat _ n K); trivial. now apply (post_rows_sum X mixture d K).
  - apply Forall_from_nth. intros k Hk.
    rewrite (length_p_hat _ n K) in Hk by trivial.
    rewrite (nth_p_hat _ n K) by trivial.
    apply Rle_mult_inv_pos; [|apply lt_0_INR; lia].
    apply bigsum_nonneg. intros i Hi. apply Rlt_le.
    now apply (entry_post_pos X mixture n d K).
  - eapply Forall_impl; [|exact Hfloor]. intros t Ht. cbv beta in Ht.
    unfold default_min_variance in Ht. lra.
Qed.

(** One pass of the loop from a mixture whose variances are at or above
    the floor lowers the cost by at most [n * K * 1e-16]. *)
Lemma em_step_cost_bound (X : matrix) (mixture : GaussianMixture)
      (n d K : nat) :
  (0 < n)%nat -> matrix_shape n d X -> mixture_ok K d mixture ->
  above_floor mixture ->
  snd (estep X mixture) - INR n * INR K * 1e-16
  <= snd (estep X (em_step X mixture)).
Proof.
  intros Hn HX Hok Hfl.
  pose proof (mixture_ok_pos_K K d mixture Hok) as HK.
  destruct Hok as [Hm [Hps [Hp0 Hv0]]].
  destruct (em_step_ok X mixture n d K Hn HK HX Hm) as [[Hm' _] _].
  pose proof (post_shape X mixture n d K HX Hm) as Hpost.
  pose proof Hm as [Hmu [HvK HpK]].
  assert (HKc : ncols (fst (estep X mixture)) = K)
    by (eapply ncols_shape; eauto).
  rewrite (snd_estep_loglik X mixture n d K),
          (snd_estep_loglik X (em_step X mixture) n d K) by trivial.
  unfold f_at.
  apply (em_loglik_bound n d K (entry X) (obs_ind X)
           (entry (fst (estep X mixture)))
           (entry (mu mixture)) (entry (mu (em_step X mixture)))
           (var_at mixture) (var_at (em_step X mixture))
           (p_at mixture) (p_at (em_step X mixture))
           default_min_variance); trivial.
  - intros i j _ _. destruct (obs_ind_cases X i j) as [[H _]|[H _]]; auto.
  - intros i k Hi Hk. now apply (entry_post_softmax X mixture n d K).
  - unfold default_min_variance. lra.
  - intros k Hk. unfold var_at. apply (Forall_nth_R _ _ _ Hfl). lia.
  - intros k Hk. unfold p_at. apply (Forall_nth_R _ _ _ Hp0). lia.
  - rewrite <- HpK. unfold p_at.
    rewrite <- (Rsum_as_bigsum (p mixture)). lra.
  - intros k j Hk Hj. unfold em_step. cbn [mstep mu].
    now apply (entry_mu_hat_cases X _ mixture n d K).
  - intros k j Hk Hj. unfold em_step. cbn [mstep mu].
    now apply (entry_mu_hat_cases X _ mixture n d K).
  - intros k Hk. unfold var_at, em_step. cbn [mstep var mu].
    rewrite (nth_var_hat _ _ _ _ _ K) by trivial.
    unfold var_h_cell.
    rewrite (var_num_bigsum X _ _ n d), (var_den_bigsum X _ n d); trivial.
    + apply Hpost.
    + apply Hpost.
    + apply Forall_nth_length.
      * apply (mu_hat_shape X _ mixture K d Hmu).
      * destruct (mu_hat_shape X (fst (estep X mixture)) mixture K d Hmu). lia.
  - intros k Hk. unfold p_at, em_step. cbn [mstep p].
    now apply (nth_p_hat _ n K).
Qed.

Lemma mixture_at_ok (X : matrix) (mixture : GaussianMixture)
      (n d K i : nat) :
  (0 < n)%nat -> matrix_shape n d X -> mixture_ok K d mixture ->
  mixture_ok K d (mixture_at X mixture i) /\
  ((0 < i)%nat -> above_floor (mixture_at X mixture i)).
Proof.
  intros Hn HX Hok.
  pose proof (mixture_ok_pos_K K d mixture Hok) as HK.
  induction i as [|i [IHok _]].
  - split; [exact Hok | lia].
  - change (mixture_at X mixture (S i))
      with (em_step X (mixture_at X mixture i)).
    destruct (em_step_ok X (mixture_at X mixture i) n d K Hn HK HX)
      as [H1 H2]; [apply IHok|].
    split; auto.
Qed.

(** C1: along the loop the cost of a pass is at least the cost of the
    pass before it, less [n * K * 1e-16], once the variances entering the
    earlier pass are at or above the floor of the M-step: always from the
    second pass on, and at the first pass when the given mixture is so.
    For [n * K <= 1e8] the drop is within [1e-8]. *)
Theorem cost_nondecreasing_above_floor (X : matrix)
        (mixture : GaussianMixture) (n d K i : nat) :
  (0 < n)%nat -> matrix_shape n d X -> mixture_ok K d mixture ->
  (i = 0%nat -> above_floor mixture) ->
  cost_at X mixture i - INR n * INR K * 1e-16 <= cost_at X mixture (S i) /\
  (INR n * INR K <= 1e8 ->
   - 1e-8 <= cost_at X mixture (S i) - cost_at X mixture i).
Proof.
  intros Hn HX Hok H0.
  destruct (mixture_at_ok X mixture n d K i Hn HX Hok) as [Hoki Hfli].
  assert (Hfl : above_floor (mixture_at X mixture i)).
  { destruct i as [|i]; [now apply H0 | apply Hfli; lia]. }
  assert (Hb : cost_at X mixture i - INR n * INR K * 1e-16
               <= cost_at X mixture (S i)).
  { unfold cost_at.
    change (mixture_at X mixture (S i))
      with (em_step X (mixture_at X mixture i)).
    now apply (em_step_cost_bound X _ n d K). }
  split; [exact Hb|]. intros Hsmall. lra.
Qed.

(** * The sample inputs *)

Ltac decide_R :=
  repeat match goal with
  | |- context [Req_dec_T ?a ?b] => destruct (Req_dec_T a b); try lra
  | |- context [Rge_dec ?a ?b] => destruct (Rge_dec a b); try lra
  | |- context [Rle_dec ?a ?b] => destruct (Rle_dec a b); try lra
  end.

Ltac shape := repeat split; repeat constructor; simpl; try lra; try lia.

Lemma logsumexp_single (a : R) : logsumexp [a] = a.
Proof.
  unfold logsumexp. cbn. replace (a - a) with 0 by lra.
  rewrite exp_0. replace (1 + 0) with 1 by lra. rewrite ln_1. lra.
Qed.

Lemma post_row_single (a : R) : post_row [a] = [1].
Proof.
  rewrite post_row_eq, logsumexp_single. cbn.
  replace (a - a) with 0 by lra. now rewrite exp_0.
Qed.

Lemma snd_estep_single (x m : vec) (v pk : R) :
  snd (estep [x] (mkGaussianMixture [m] [v] [pk])) = f_entry x m v pk.
Proof.
  rewrite snd_estep. cbn [f_matrix map f_row f_cells mu var p].
  rewrite ll_row by discriminate. rewrite logsumexp_single. cbn. lra.
Qed.

Lemma f_entry_one (v : R) :
  f_entry [1] [1] v 1 = - (1 / 2) * (ln (2 * PI) + ln v) + ln (1 + 1e-16).
Proof.
  unfold f_entry, norm_entry, rated_row, non_null_row. cbn.
  decide_R. cbn. unfold Rdiv. ring.
Qed.

Lemma fst_estep_two : fst (estep X_two mix_two) = [[1]; [1]].
Proof.
  rewrite fst_estep. cbn [X_two mix_two f_matrix map f_row f_cells mu var p].
  now rewrite !post_row_single.
Qed.

Lemma em_step_two : em_step X_two mix_two = mix_two.
Proof.
  unfold em_step. rewrite fst_estep_two.
  unfold mstep, mix_two, X_two, mu_hat, var_hat, p_hat, default_min_variance.
  cbn. unfold mu_h_cell, var_h_cell, mean_den, mean_num, var_num, var_den,
         sq_resid. cbn.
  decide_R; f_equal; repeat f_equal; field.
Qed.

Lemma fst_estep_one : fst (estep X_one mix_narrow) = [[1]].
Proof.
  rewrite fst_estep. cbn [X_one mix_narrow f_matrix map f_row f_cells mu var p].
  now rewrite !post_row_single.
Qed.

Lemma em_step_narrow : em_step X_one mix_narrow = mix_floored.
Proof.
  unfold em_step. rewrite fst_estep_one.
  unfold mstep, mix_narrow, mix_floored, X_one, mu_hat, var_hat, p_hat,
         default_min_variance.
  cbn. unfold mu_h_cell, var_h_cell, mean_den, mean_num, var_num, var_den,
         sq_resid. cbn.
  decide_R; f_equal; repeat f_equal; field.
Qed.

Lemma cost_narrow_drop :
  cost_at X_one mix_narrow 1 - cost_at X_one mix_narrow 0 = - ln 2.
Proof.
  unfold cost_at, mixture_at. cbn [Nat.iter nat_rect].
  rewrite em_step_narrow. unfold X_one, mix_floored, mix_narrow.
  rewrite !snd_estep_single, !f_entry_one.
  assert (E4 : ln 0.25 = - (ln 2 + ln 2)).
  { replace 0.25 with (/ (2 * 2)) by lra.
    rewrite ln_Rinv, ln_mult by lra. reflexivity. }
  assert (E16 : ln (1 / 16) = - (ln 2 + ln 2 + (ln 2 + ln 2))).
  { replace (1 / 16) with (/ ((2 * 2) * (2 * 2))) by lra.
    rewrite ln_Rinv, !ln_mult by lra. reflexivity. }
  rewrite E4, E16. lra.
Qed.

Lemma run_stops_second_pass (X : matrix) (mixture : GaussianMixture)
      (post : matrix) (g : option R) (fuel : nat) :
  improvement_small X mixture 1 ->
  run (2 + fuel) g X mixture post =
  Some (mixture_at X mixture 2, fst (estep X (mixture_at X mixture 1)),
        cost_at X mixture 1).
Proof.
  intros Hsmall. unfold run.
  destruct (run_loop_stops X mixture 1 (2 + fuel) 0 _
              (loop_inv_init X mixture post g)) as [s' [E [Hm Hp]]];
    try lia; trivial.
  now rewrite E, Hm, Hp.
Qed.

Lemma improvement_small_two : improvement_small X_two mix_two 1.
Proof.
  unfold improvement_small, cost_at.
  rewrite !(mixture_at_fixed X_two mix_two _ em_step_two).
  pose proof (Rabs_pos (snd (estep X_two mix_two))). lra.
Qed.

Lemma improvement_small_narrow : improvement_small X_one mix_narrow 1.
Proof.
  unfold improvement_small. cbn [Nat.sub]. rewrite cost_narrow_drop.
  pose proof (Rabs_pos (cost_at X_one mix_narrow 1)).
  pose proof ln_lt_2. lra.
Qed.

(** C1, as stated, fails: from a valid mixture whose variance is below
    the floor, the floor of the first M-step lowers the cost of the second
    pass by [ln 2]. *)
Lemma cost_drops_from_below_floor :
  matrix_shape 1 1 X_one /\ mixture_ok 1 1 mix_narrow /\
  (exists r, run 2 None X_one mix_narrow [] = Some r) /\
  cost_at X_one mix_narrow 1 - cost_at X_one mix_narrow 0 < - 1e-8.
Proof.
  split; [shape|]. split; [unfold mix_narrow; shape|]. split.
  - eexists. apply (run_stops_second_pass X_one mix_narrow [] None 0).
    exact improvement_small_narrow.
  - rewrite cost_narrow_drop. pose proof ln_lt_2. lra.
Qed.

(** C9, as stated, fails: at a fixed point of the E-step and M-step the
    loop has not stopped after one pass. *)
Lemma fixed_point_not_stopped_after_one_pass :
  mixture_ok 1 1 mix_two /\ em_step X_two mix_two = mix_two /\
  forall (g : option R) (post : matrix), run 1 g X_two mix_two post = None.
Proof.
  split; [unfold mix_two; shape|]. split; [exact em_step_two|].
  intros g post. apply run_first_pass_goes_on.
Qed.

(** ** The theorems at the sample inputs *)

Lemma cost_nondecreasing_above_floor_witness :
  cost_at X_two mix_two 0 - INR 2 * INR 1 * 1e-16 <= cost_at X_two mix_two 1 /\
  - 1e-8 <= cost_at X_two mix_two 1 - cost_at X_two mix_two 0.
Proof.
  destruct (cost_nondecreasing_above_floor X_two mix_two 2 1 1 0)
    as [Hbound Htol].
  - lia.
  - shape.
  - unfold mix_two; shape.
  - intros _. unfold above_floor, default_min_variance. simpl.
    repeat constructor. lra.
  - split; [exact Hbound|]. apply Htol. simpl. lra.
Defined.

Lemma run_returns_stopping_pass_witness :
  run 1 None X_two mix_two [] = None /\
  run 2 None X_two mix_two [] =
  Some (mstep X_two (fst (estep X_two (mixture_at X_two mix_two 1)))
              (mixture_at X_two mix_two 1) default_min_variance,
        fst (estep X_two (mixture_at X_two mix_two 1)),
        snd (estep X_two (mixture_at X_two mix_two 1))).
Proof.
  destruct (run_returns_stopping_pass X_two mix_two [] None 1 0)
    as [Hfirst [_ Hstop]].
  - lia.
  - exact improvement_small_two.
  - intros j H1 H2. lia.
  - split; [exact Hfirst | exact Hstop].
Defined.

Lemma estep_f_formula_witness :
  entry (f_matrix X_three mix_three) 0 0 =
    - dist_obs (nth 0 X_three []) (nth 0 (mu mix_three) []) 3
      / (2 * nth 0 (var mix_three) 0)
    - (INR (length (obs_dims (nth 0 X_three []) 3)) / 2)
      * (ln (2 * PI) + ln (nth 0 (var mix_three) 0))
    + ln (nth 0 (p mix_three) 0 + 1e-16).
Proof.
  apply (estep_f_formula X_three mix_three 3 3 2 0 0).
  - shape.
  - unfold mix_three; shape.
  - lia.
  - lia.
Defined.

Lemma estep_post_rows_sum_to_one_witness :
  Rsum (nth 0 (fst (estep X_three mix_three)) []) = 1.
Proof.
  apply (estep_post_rows_sum_to_one X_three mix_three 3 3 2 0).
  - shape.
  - unfold mix_three; shape.
  - lia.
Defined.

Lemma mstep_weights_and_variance_floor_witness :
  Rsum (p (mstep X_three post_three mix_three 0.25)) = 1.
Proof.
  apply (mstep_weights_and_variance_floor X_three post_three mix_three
           0.25 3 3 2).
  - lia.
  - shape.
  - shape.
  - unfold mix_three; shape.
  - unfold post_three. repeat constructor; simpl; lra.
Defined.

Lemma mstep_mean_update_witness :
  entry (mu (mstep X_three post_three mix_three 0.25)) 0 0 =
  bigsum 3 (fun i => entry post_three i 0 * entry X_three i 0
                     * obs_ind X_three i 0)
  / bigsum 3 (fun i => entry post_three i 0 * obs_ind X_three i 0).
Proof.
  destruct (mstep_mean_update X_three post_three mix_three 0.25 3 3 2 0 0)
    as [Hge _].
  - lia.
  - shape.
  - shape.
  - unfold mix_three; shape.
  - lia.
  - lia.
  - apply Hge. unfold bigsum, entry, obs_ind, is_zero. cbn. decide_R.
Defined.

Lemma estep_loglik_is_sum_of_normalizers_witness :
  snd (estep X_three mix_three) =
  Rsum (map logsumexp (f_matrix X_three mix_three)).
Proof.
  apply (estep_loglik_is_sum_of_normalizers X_three mix_three 3 3 2).
  - shape.
  - unfold mix_three; shape.
Defined.

Lemma fill_matrix_frame_witness :
  snd (fill_matrix_h [X_three] 0%nat mix_three) <> 0%nat /\
  deref (fst (fill_matrix_h [X_three] 0%nat mix_three)) 0%nat = X_three.
Proof.
  destruct (fill_matrix_frame [X_three] 0%nat mix_three 3 3 2)
    as [H1 [H2 _]].
  - simpl. lia.
  - shape.
  - unfold mix_three; shape.
  - split; [exact H1 | exact H2].
Defined.

Lemma run_at_fixed_point_witness :
  run 1 None X_two mix_two [] = None /\
  run 2 None X_two mix_two [] =
  Some (mix_two, fst (estep X_two mix_two), snd (estep X_two mix_two)).
Proof.
  apply (run_at_fixed_point X_two mix_two [] None 0).
  exact em_step_two.
Defined.

Lemma unobserved_row_posterior_and_fill_witness :
  entry (fst (estep X_gap mix_gap)) 0 0 =
  (nth 0 (p mix_gap) 0 + 1e-16)
  / bigsum 2 (fun k' => nth k' (p mix_gap) 0 + 1e-16).
Proof.
  destruct (unobserved_row_posterior_and_fill X_gap mix_gap 2 2 2 0)
    as [Hpost _].
  - shape.
  - unfold mix_gap; shape.
  - lia.
  - intros j Hj. unfold entry, X_gap.
    destruct j as [|[|j]]; simpl; try reflexivity; lia.
  - apply (Hpost 0%nat). lia.
Defined.

(** * Further properties of the E-step *)





(** X2: the E-step works row by row: on the rows of [X1] followed by
    those of [X2] the responsibilities are those of [X1] followed by those
    of [X2], and the cost is the sum of the two costs. *)
Theorem estep_app (X1 X2 : matrix) (mixture : GaussianMixture) :
  fst (estep (X1 ++ X2) mixture) =
    fst (estep X1 mixture) ++ fst (estep X2 mixture) /\
  snd (estep (X1 ++ X2) mixture) =
    snd (estep X1 mixture) + snd (estep X2 mixture).
Proof.
  split.
  - rewrite !fst_estep. unfold f_matrix. now rewrite !map_app.
  - rewrite !snd_estep. unfold f_matrix. now rewrite !map_app, Rsum_app.
Qed.





(** * Further properties of the M-step *)

(** X4: the new variance of component [k] is the responsibility-weighted
    squared residual of the observed cells around the new means, divided
    by the weighted number of observed cells, and raised to
    [min_variance] when it is below it. *)
Theorem mstep_variance_formula (X post : matrix) (mixture : GaussianMixture)
        (min_variance : R) (n d K k : nat) :
  (0 < n)%nat -> matrix_shape n d X -> matrix_shape n K post ->
  mixture_shape K d mixture -> (k < K)%nat ->
  let m' := mstep X post mixture min_variance in
  let pv := wsum_sqdist n d (obs_ind X) (entry X) (entry post)
                        (entry (mu m')) k
            / wsum_nobs n d (obs_ind X) (entry post) k in
  nth k (var m') 0 = Rmax pv min_variance.
Proof.
  intros Hn HX Hpost [Hmu [HvK _]] Hk m' pv. unfold pv, m'.
  cbn [mstep var mu].
  rewrite (nth_var_hat _ _ _ _ _ K); trivial;
    [|eapply ncols_shape; eauto].
  unfold var_h_cell, wsum_sqdist, wsum_nobs.
  rewrite (var_num_bigsum X _ _ n d), (var_den_bigsum X _ n d); trivial;
    try apply Hpost.
  - unfold Rmax. destruct (Rge_dec _ min_variance), (Rle_dec _ min_variance);
      lra.
  - pose proof (mu_hat_shape X post mixture K d Hmu) as [Hl Hr].
    apply Forall_nth_length; trivial. lia.
Qed.

(** X5: from responsibilities that are non-negative with rows summing
    to one, and a positive [min_variance], the M-step returns a mixture of
    the shape of the previous one whose weights are non-negative and sum
    to one and whose variances are positive. *)
Theorem mstep_returns_valid_mixture (X post : matrix)
        (mixture : GaussianMixture) (min_variance : R) (n d K : nat) :
  (0 < n)%nat -> matrix_shape n d X -> matrix_shape n K post ->
  mixture_shape K d mixture ->
  Forall (fun r => Rsum r = 1) post ->
  (forall i k, (i < n)%nat -> (k < K)%nat -> 0 <= entry post i k) ->
  0 < min_variance ->
  mixture_ok K d (mstep X post mixture min_variance).
Proof.
  intros Hn HX Hpost [Hmu [HvK HpK]] Hrows Hpos Hmv.
  assert (HKc : ncols post = K) by (eapply ncols_shape; eauto).
  unfold mixture_ok, mixture_shape. cbn [mstep mu var p].
  split; [split; [|split]|split; [|split]].
  - now apply mu_hat_shape.
  - now rewrite length_var_hat.
  - now apply (length_p_hat _ n K).
  - now apply (Rsum_p_hat _ n K).
  - apply Forall_from_nth. intros k Hk.
    rewrite (length_p_hat _ n K) in Hk by trivial.
    rewrite (nth_p_hat _ n K) by trivial.
    apply Rle_mult_inv_pos; [|apply lt_0_INR; lia].
    apply bigsum_nonneg. intros i Hi. now apply Hpos.
  - apply Forall_from_nth. intros k Hk. rewrite length_var_hat in Hk.
    rewrite (nth_var_hat _ _ _ _ _ K) by (trivial; lia).
    pose proof (var_h_cell_floor X post (nth k (mu_hat X post mixture) []) k
                  min_variance). lra.
Qed.

Lemma mapi_from_const_ext {A B : Type} (g : nat -> B) (l1 l2 : list A)
      (s : nat) :
  length l1 = length l2 ->
  mapi_from s (fun k _ => g k) l1 = mapi_from s (fun k _ => g k) l2.
Proof.
  revert l2 s. induction l1 as [|a t IH]; intros [|b t2] s H;
    simpl in *; try discriminate; trivial.
  f_equal. apply IH. lia.
Qed.

(** X6: of the previous mixture the M-step uses the means alone: two
    mixtures with the same means, and as many variances, give the same
    result whatever their variances and weights are. *)
Theorem mstep_uses_previous_means_only (X post : matrix)
        (m1 m2 : GaussianMixture) (min_variance : R) :
  mu m1 = mu m2 -> length (var m1) = length (var m2) ->
  mstep X post m1 min_variance = mstep X post m2 min_variance.
Proof.
  intros Hmu Hlen. unfold mstep.
  assert (E : mu_hat X post m1 = mu_hat X post m2)
    by (unfold mu_hat; now rewrite Hmu).
  rewrite E. f_equal. unfold var_hat, mapi.
  now apply mapi_from_const_ext.
Qed.

Lemma cells_in_entry (lo hi : R) (M : matrix) (K d : nat) :
  matrix_shape K d M ->
  (cells_in lo hi M <->
   forall k j, (k < K)%nat -> (j < d)%nat -> lo <= entry M k j <= hi).
Proof.
  intros [Hl Hr]. unfold cells_in, entry. split.
  - intros H k j Hk Hj. rewrite Forall_forall in H.
    assert (Hrow : Forall (fun t => lo <= t <= hi) (nth k M []))
      by (apply H, nth_In; lia).
    rewrite Forall_forall in Hrow. apply Hrow, nth_In.
    rewrite (Forall_nth_length M d); trivial; lia.
  - intros H. apply Forall_forall. intros r Hin.
    destruct (In_nth _ _ [] Hin) as [k [Hk <-]].
    apply Forall_from_nth. intros j Hj.
    rewrite (Forall_nth_length M d) in Hj by (trivial; lia).
    apply H; lia.
Qed.

(** A weighted mean of values in [[lo, hi]] lies in [[lo, hi]]. *)
Lemma weighted_mean_in_range (n : nat) (u xs : nat -> R) (lo hi : R) :
  (forall i, (i < n)%nat -> 0 <= u i) ->
  (forall i, (i < n)%nat -> u i <> 0 -> lo <= xs i <= hi) ->
  0 < bigsum n u ->
  lo <= bigsum n (fun i => u i * xs i) / bigsum n u <= hi.
Proof.
  intros Hu Hx Hpos.
  assert (Hlo : lo * bigsum n u <= bigsum n (fun i => u i * xs i)).
  { rewrite <- bigsum_scal. apply bigsum_le. intros i Hi.
    destruct (Req_dec_T (u i) 0) as [E|E]; [rewrite E; lra|].
    specialize (Hu i Hi). specialize (Hx i Hi E). nra. }
  assert (Hhi : bigsum n (fun i => u i * xs i) <= hi * bigsum n u).
  { rewrite <- bigsum_scal. apply bigsum_le. intros i Hi.
    destruct (Req_dec_T (u i) 0) as [E|E]; [rewrite E; lra|].
    specialize (Hu i Hi). specialize (Hx i Hi E). nra. }
  split.
  - apply (Rmult_le_reg_r (bigsum n u)); trivial.
    unfold Rdiv. rewrite Rmult_assoc, Rinv_l by lra. lra.
  - apply (Rmult_le_reg_r (bigsum n u)); trivial.
    unfold Rdiv. rewrite Rmult_assoc, Rinv_l by lra. lra.
Qed.

Lemma mu_hat_in_range (X post : matrix) (mixture : GaussianMixture)
      (min_variance lo hi : R) (n d K : nat) :
  (0 < n)%nat -> matrix_shape n d X -> matrix_shape n K post ->
  mixture_shape K d mixture ->
  (forall i k, (i < n)%nat -> (k < K)%nat -> 0 <= entry post i k) ->
  (forall i j, (i < n)%nat -> (j < d)%nat -> entry X i j <> 0 ->
               lo <= entry X i j <= hi) ->
  cells_in lo hi (mu mixture) ->
  cells_in lo hi (mu (mstep X post mixture min_variance)).
Proof.
  intros Hn HX Hpost [Hmu _] Hpos Hobs Hin. cbn [mstep mu].
  apply (cells_in_entry lo hi _ K d); [now apply mu_hat_shape|].
  intros k j Hk Hj.
  destruct (entry_mu_hat_cases X post mixture n d K k j Hn HX Hpost Hmu Hk Hj)
    as [Hge Hlt].
  destruct (Rle_lt_dec 1 (bigsum n (fun i => entry post i k * obs_ind X i j)))
    as [H1|H1].
  - rewrite (Hge H1).
    rewrite (bigsum_ext _ (fun i => entry post i k * entry X i j * obs_ind X i j)
               (fun i => (entry post i k * obs_ind X i j) * entry X i j))
      by (intros; ring).
    apply weighted_mean_in_range.
    + intros i Hi. apply Rmult_le_pos; [now apply Hpos|].
      destruct (obs_ind_cases X i j) as [[-> _]|[-> _]]; lra.
    + intros i Hi Hne. apply Hobs; trivial.
      destruct (obs_ind_cases X i j) as [[E _]|[_ E]]; trivial.
      rewrite E in Hne. lra.
    + lra.
  - rewrite (Hlt H1).
    now apply (cells_in_entry lo hi (mu mixture) K d Hmu).
Qed.

(** X7: when the observed ratings and the previous means lie in
    [[lo, hi]], so do the means returned by the M-step. *)
Theorem mstep_means_in_range (X post : matrix) (mixture : GaussianMixture)
        (min_variance lo hi : R) (n d K : nat) :
  (0 < n)%nat -> matrix_shape n d X -> matrix_shape n K post ->
  mixture_shape K d mixture ->
  (forall i k, (i < n)%nat -> (k < K)%nat -> 0 <= entry post i k) ->
  (forall i j, (i < n)%nat -> (j < d)%nat -> entry X i j <> 0 ->
               lo <= entry X i j <= hi) ->
  cells_in lo hi (mu mixture) ->
  cells_in lo hi (mu (mstep X post mixture min_variance)).
Proof. apply mu_hat_in_range. Qed.

(** X8: an item that no user has rated keeps, in every pass of the loop,
    the means the given mixture has for it. *)
Theorem unrated_item_keeps_its_means (X : matrix) (mixture : GaussianMixture)
        (n d K i k j : nat) :
  (0 < n)%nat -> matrix_shape n d X -> mixture_ok K d mixture ->
  (k < K)%nat -> (j < d)%nat ->
  (forall r, (r < n)%nat -> entry X r j = 0) ->
  entry (mu (mixture_at X mixture i)) k j = entry (mu mixture) k j.
Proof.
  intros Hn HX Hok Hk Hj Hz. induction i as [|i IH]; [reflexivity|].
  rewrite <- IH.
  destruct (mixture_at_ok X mixture n d K i Hn HX Hok) as [[Hm _] _].
  change (mixture_at X mixture (S i))
    with (em_step X (mixture_at X mixture i)).
  unfold em_step. cbn [mstep mu].
  destruct (entry_mu_hat_cases X (fst (estep X (mixture_at X mixture i)))
              (mixture_at X mixture i) n d K k j Hn HX
              (post_shape X _ n d K HX Hm) (proj1 Hm) Hk Hj) as [_ Hlt].
  apply Hlt.
  rewrite bigsum_zero; [lra|]. intros r Hr.
  destruct (obs_ind_cases X r j) as [[-> _]|[_ E]]; [ring|].
  exfalso. apply E. now apply Hz.
Qed.

(** * Further properties of the loop *)

(** A run that returns has stopped at the first pass whose test
    succeeds. *)
Lemma run_loop_sound (X : matrix) (mixture : GaussianMixture)
      (fuel i : nat) (s s' : loop_state) (c : R) :
  loop_inv X mixture i s ->
  run_loop fuel X s = Some (s', c) ->
  exists N, (i <= N)%nat /\ (N < i + fuel)%nat /\ (0 < N)%nat /\
    improvement_small X mixture N /\
    (forall j, (i <= j)%nat -> (0 < j)%nat -> (j < N)%nat ->
               ~ improvement_small X mixture j) /\
    c = cost_at X mixture N /\
    ls_mixture s' = mixture_at X mixture (S N) /\
    ls_post s' = fst (estep X (mixture_at X mixture N)).
Proof.
  revert i s. induction fuel as [|fuel IH]; intros i s Hinv Hrun;
    [discriminate|].
  cbn [run_loop] in Hrun.
  pose proof (run_body_step X mixture i s Hinv) as Hstep.
  destruct (run_body X s) as [s1|s1 c1|]; [| |discriminate].
  - destruct Hstep as [Hinv' Hwhy].
    destruct (IH (S i) s1 Hinv' Hrun)
      as [N [H1 [H2 [H3 [H4 [H5 [H6 [H7 H8]]]]]]]].
    exists N. repeat split; trivial; try lia.
    intros j Hj Hpos HjN. destruct (Nat.eq_dec j i) as [->|Hne].
    + destruct Hwhy as [Hz|Hnot]; [lia | exact Hnot].
    + apply H5; lia.
  - destruct Hstep as [Hpos [Hsmall [Hc [Hm Hp]]]].
    inversion Hrun; subst. exists i. repeat split; trivial; try lia.
Qed.

Lemma run_sound (X : matrix) (mixture : GaussianMixture) (post : matrix)
      (g : option R) (fuel : nat) (r : GaussianMixture * matrix * R) :
  run fuel g X mixture post = Some r ->
  exists N, (0 < N)%nat /\ (N < fuel)%nat /\
    improvement_small X mixture N /\
    (forall j, (0 < j)%nat -> (j < N)%nat -> ~ improvement_small X mixture j) /\
    r = (mixture_at X mixture (S N),
         fst (estep X (mixture_at X mixture N)),
         cost_at X mixture N).
Proof.
  unfold run. intros Hrun.
  destruct (run_loop fuel X (mkLoop 0 mixture post None g)) as [[s' c]|] eqn:E;
    [|discriminate].
  destruct (run_loop_sound X mixture fuel 0 _ s' c
              (loop_inv_init X mixture post g) E)
    as [N [_ [H2 [H3 [H4 [H5 [H6 [H7 H8]]]]]]]].
  exists N. repeat split; trivial; try lia.
  - intros j Hj HjN. apply H5; lia.
  - inversion Hrun. now rewrite H6, H7, H8.
Qed.

Lemma run_complete (X : matrix) (mixture : GaussianMixture) (post : matrix)
      (g : option R) (fuel N : nat) :
  (0 < N)%nat -> (N < fuel)%nat -> improvement_small X mixture N ->
  (forall j, (0 < j)%nat -> (j < N)%nat -> ~ improvement_small X mixture j) ->
  run fuel g X mixture post =
  Some (mixture_at X mixture (S N),
        fst (estep X (mixture_at X mixture N)),
        cost_at X mixture N).
Proof.
  intros HN Hf Hyes Hno. unfold run.
  destruct (run_loop_stops X mixture N fuel 0 _
              (loop_inv_init X mixture post g) HN Hyes Hno)
    as [s' [E [Hm Hp]]]; try lia.
  now rewrite E, Hm, Hp.
Qed.

(** X9: a run that returns has made [N + 1 <= fuel] passes, where [N >= 1]
    is the first pass whose improvement is at most [1e-6 * |cost|]; it
    returns the [post] and the [cost] of the E-step of pass [N] and the
    mixture of the M-step of that pass. *)
Theorem run_returns_only_at_first_small_improvement (X : matrix)
        (mixture : GaussianMixture) (post : matrix) (g : option R)
        (fuel : nat) (r : GaussianMixture * matrix * R) :
  run fuel g X mixture post = Some r ->
  exists N, (0 < N)%nat /\ (N < fuel)%nat /\
    improvement_small X mixture N /\
    (forall j, (0 < j)%nat -> (j < N)%nat -> ~ improvement_small X mixture j) /\
    r = (mstep X (fst (estep X (mixture_at X mixture N)))
               (mixture_at X mixture N) default_min_variance,
         fst (estep X (mixture_at X mixture N)),
         snd (estep X (mixture_at X mixture N))).
Proof. apply run_sound. Qed.

(** X10: the result of [run] depends neither on its argument [post],
    which the first E-step overwrites, nor on the value the global
    [prev_cost] has when it is called. *)
Theorem run_ignores_post_and_global (X : matrix) (mixture : GaussianMixture)
        (post post' : matrix) (g g' : option R) (fuel : nat) :
  run fuel g X mixture post = run fuel g' X mixture post'.
Proof.
  assert (Hto : forall p1 p2 g1 g2 r,
             run fuel g1 X mixture p1 = Some r ->
             run fuel g2 X mixture p2 = Some r).
  { intros p1 p2 g1 g2 r Hr.
    destruct (run_sound X mixture p1 g1 fuel r Hr)
      as [N [H1 [H2 [H3 [H4 ->]]]]].
    now apply run_complete. }
  destruct (run fuel g X mixture post) as [r|] eqn:E1.
  - symmetry. now apply (Hto post post' g g').
  - destruct (run fuel g' X mixture post') as [r|] eqn:E2; [|reflexivity].
    rewrite (Hto post' post g' g r E2) in E1. discriminate.
Qed.





(** * Further properties of the imputation *)

Lemma where_zero_complete (X : matrix) :
  Forall (Forall (fun t => t <> 0)) X -> where_zero X = [].
Proof.
  intros H. destruct (where_zero X) as [|[i j] l] eqn:E; [reflexivity|].
  exfalso.
  assert (Hin : In (i, j) (where_zero X)) by (rewrite E; now left).
  apply In_where_zero in Hin. destruct Hin as [Hi [Hj Hz]].
  rewrite Forall_forall in H.
  assert (Hrow : Forall (fun t => t <> 0) (nth i X [])) by (apply H, nth_In, Hi).
  rewrite Forall_forall in Hrow. apply (Hrow (entry X i j)); trivial.
  unfold entry. now apply nth_In.
Qed.

(** X13: a matrix without any zero cell is returned as it is. *)
Theorem fill_matrix_complete (X : matrix) (mixture : GaussianMixture) :
  Forall (Forall (fun t => t <> 0)) X -> fill_matrix X mixture = X.
Proof.
  intros H. unfold fill_matrix, fill_matrix_h, np_copy.
  change (deref [X] 0%nat) with X.
  rewrite (where_zero_complete X H). reflexivity.
Qed.

(** The cells of the array that [fill_matrix] returns. *)
Lemma fill_matrix_cells (X : matrix) (mixture : GaussianMixture)
      (n d K : nat) :
  matrix_shape n d X -> mixture_shape K d mixture ->
  matrix_shape n d (fill_matrix X mixture) /\
  forall i j, (i < n)%nat -> (j < d)%nat ->
    (entry X i j <> 0 -> entry (fill_matrix X mixture) i j = entry X i j) /\
    (entry X i j = 0 ->
     entry (fill_matrix X mixture) i j =
     bigsum K (fun k => entry (fst (estep X mixture)) i k
                        * entry (mu mixture) k j)).
Proof.
  intros HX Hm. unfold fill_matrix.
  rewrite (surjective_pairing (fill_matrix_h [X] 0%nat mixture)).
  destruct (fill_matrix_h_spec [X] 0%nat mixture n d K) as [_ [_ [Hs Hc]]];
    [simpl; lia | exact HX | exact Hm |].
  split; [exact Hs | exact Hc].
Qed.

Lemma fill_matrix_cells_in (X : matrix) (mixture : GaussianMixture)
      (lo hi : R) (n d K : nat) :
  matrix_shape n d X -> mixture_ok K d mixture ->
  (forall i j, (i < n)%nat -> (j < d)%nat -> entry X i j <> 0 ->
               lo <= entry X i j <= hi) ->
  cells_in lo hi (mu mixture) ->
  cells_in lo hi (fill_matrix X mixture).
Proof.
  intros HX Hok Hobs Hmu.
  pose proof (mixture_ok_pos_K K d mixture Hok) as HK.
  destruct Hok as [Hm _].
  destruct (fill_matrix_cells X mixture n d K HX Hm) as [Hs Hc].
  apply (cells_in_entry lo hi _ n d Hs). intros i j Hi Hj.
  destruct (Hc i j Hi Hj) as [Hnz Hz].
  destruct (Req_dec_T (entry X i j) 0) as [E|E].
  - rewrite (Hz E).
    assert (Hsum : bigsum K (fun k => entry (fst (estep X mixture)) i k) = 1).
    { rewrite <- (Rsum_nth_row _ n K) by (trivial; now apply (post_shape X mixture n d K)).
      pose proof (post_rows_sum X mixture d K HK Hm) as Hrows.
      rewrite Forall_forall in Hrows. apply Hrows, nth_In.
      destruct (post_shape X mixture n d K HX Hm) as [Hl _]. lia. }
    pose proof (weighted_mean_in_range K
                  (fun k => entry (fst (estep X mixture)) i k)
                  (fun k => entry (mu mixture) k j) lo hi) as Hw.
    cbv beta in Hw. rewrite Hsum in Hw. unfold Rdiv in Hw.
    rewrite Rinv_1, Rmult_1_r in Hw. apply Hw.
    + intros k Hk. apply Rlt_le. now apply (entry_post_pos X mixture n d K).
    + intros k Hk _.
      apply (cells_in_entry lo hi (mu mixture) K d); trivial. apply Hm.
    + lra.
  - rewrite (Hnz E). now apply Hobs.
Qed.

(** X14: when the observed ratings and the means of the mixture lie in
    [[lo, hi]], so does every cell of the completed matrix. *)
Theorem fill_matrix_in_range (X : matrix) (mixture : GaussianMixture)
        (lo hi : R) (n d K : nat) :
  matrix_shape n d X -> mixture_ok K d mixture ->
  (forall i j, (i < n)%nat -> (j < d)%nat -> entry X i j <> 0 ->
               lo <= entry X i j <= hi) ->
  cells_in lo hi (mu mixture) ->
  cells_in lo hi (fill_matrix X mixture).
Proof. apply fill_matrix_cells_in. Qed.

(** * The error measure *)

Lemma sq_diff_row (x y : vec) (d : nat) :
  length x = d -> length y = d ->
  Rsum (map (fun t => t ^ 2) (map2 Rminus x y)) =
  bigsum d (fun j => (nth j x 0 - nth j y 0) ^ 2).
Proof.
  intros Hx Hy.
  rewrite (Rsum_map_bigsum _ _ 0), length_map2, Hx, Hy, Nat.min_id.
  apply bigsum_ext. intros j Hj.
  now rewrite (nth_map2 Rminus _ _ _ 0 0) by lia.
Qed.

Lemma rmse_bigsum (X Y : matrix) (n d : nat) :
  (0 < n)%nat -> matrix_shape n d X -> matrix_shape n d Y ->
  rmse X Y =
  sqrt (bigsum n (fun i => bigsum d (fun j =>
                   (entry X i j - entry Y i j) ^ 2)) / INR (n * d)).
Proof.
  intros Hn HX HY. unfold rmse, Rsum2, nrows.
  rewrite (ncols_shape X n d HX Hn).
  destruct HX as [HXl HXr]. destruct HY as [HYl HYr]. rewrite HXl.
  f_equal. f_equal.
  rewrite (Rsum_map_bigsum Rsum _ []), length_map2, HXl, HYl, Nat.min_id.
  apply bigsum_ext. intros i Hi.
  rewrite (nth_map2 _ _ _ _ [] []) by lia.
  apply sq_diff_row; apply Forall_nth_length; trivial; lia.
Qed.

Lemma matrix_ext (X Y : matrix) (n d : nat) :
  matrix_shape n d X -> matrix_shape n d Y ->
  (forall i j, (i < n)%nat -> (j < d)%nat -> entry X i j = entry Y i j) ->
  X = Y.
Proof.
  intros [HXl HXr] [HYl HYr] H.
  apply (nth_ext _ _ [] []); [lia|]. intros i Hi.
  apply (nth_ext _ _ 0 0).
  - rewrite !(Forall_nth_length _ d); trivial; lia.
  - intros j Hj. rewrite (Forall_nth_length X d) in Hj by (trivial; lia).
    apply H; lia.
Qed.

Lemma sq_sum_nonneg (n d : nat) (F : nat -> nat -> R) :
  0 <= bigsum n (fun i => bigsum d (fun j => F i j ^ 2)).
Proof.
  apply bigsum_nonneg. intros i _. apply bigsum_nonneg. intros j _.
  apply pow2_ge_0.
Qed.

Lemma sq_sum_zero (n d : nat) (F : nat -> nat -> R) :
  bigsum n (fun i => bigsum d (fun j => F i j ^ 2)) = 0 ->
  forall i j, (i < n)%nat -> (j < d)%nat -> F i j = 0.
Proof.
  intros H i j Hi Hj.
  assert (Hrow : bigsum d (fun j => F i j ^ 2) = 0).
  { apply (bigsum_nonneg_zero n (fun i => bigsum d (fun j => F i j ^ 2)));
      trivial.
    intros i' _. apply bigsum_nonneg. intros j' _. apply pow2_ge_0. }
  assert (Hcell : F i j ^ 2 = 0).
  { apply (bigsum_nonneg_zero d (fun j => F i j ^ 2)); trivial.
    intros j' _. apply pow2_ge_0. }
  nra.
Qed.

Lemma INR_cells_pos (n d : nat) : (0 < n)%nat -> (0 < d)%nat -> 0 < INR (n * d).
Proof. intros Hn Hd. apply lt_0_INR. nia. Qed.

(** X15: on two non-empty matrices of the same shape the error is zero
    exactly when the two are equal. *)
Theorem rmse_zero_iff_equal (X Y : matrix) (n d : nat) :
  (0 < n)%nat -> (0 < d)%nat -> matrix_shape n d X -> matrix_shape n d Y ->
  (rmse X Y = 0 <-> X = Y).
Proof.
  intros Hn Hd HX HY. rewrite (rmse_bigsum X Y n d Hn HX HY).
  pose proof (INR_cells_pos n d Hn Hd) as Hpos.
  pose proof (sq_sum_nonneg n d (fun i j => entry X i j - entry Y i j)) as Hs.
  cbv beta in Hs. split.
  - intros H. apply sqrt_eq_0 in H.
    + assert (Hz : bigsum n (fun i => bigsum d (fun j =>
                      (entry X i j - entry Y i j) ^ 2)) = 0).
      { apply (Rmult_eq_reg_r (/ INR (n * d))).
        - unfold Rdiv in H. rewrite H. ring.
        - apply Rinv_neq_0_compat. lra. }
      apply (matrix_ext X Y n d HX HY). intros i j Hi Hj.
      pose proof (sq_sum_zero n d (fun i j => entry X i j - entry Y i j)
                    Hz i j Hi Hj) as Hc.
      cbv beta in Hc. lra.
    + apply Rle_mult_inv_pos; trivial.
  - intros E. subst Y.
    rewrite (bigsum_zero n).
    + unfold Rdiv. rewrite Rmult_0_l. apply sqrt_0.
    + intros i _. apply bigsum_zero. intros j _. ring.
Qed.

(** X16: the error does not depend on the order of its two arguments. *)
Theorem rmse_sym (X Y : matrix) (n d : nat) :
  matrix_shape n d X -> matrix_shape n d Y -> rmse X Y = rmse Y X.
Proof.
  intros HX HY. destruct n as [|n].
  - destruct HX as [HXl _], HY as [HYl _].
    destruct X; [|discriminate]. destruct Y; [|discriminate]. reflexivity.
  - rewrite (rmse_bigsum X Y (S n) d), (rmse_bigsum Y X (S n) d);
      trivial; try lia.
    f_equal. f_equal. apply bigsum_ext. intros i _.
    apply bigsum_ext. intros j _. ring.
Qed.

(** X17: against a reference matrix that agrees with [X] on the observed
    cells, the error of the completed matrix comes from the imputed cells
    alone: its square times the number of cells is the sum, over the zero
    cells of [X], of the squared difference between the reference and
    [sum_k post[i,k] * mu[k,j]]. *)
Theorem rmse_of_fill_matrix (gold X : matrix) (mixture : GaussianMixture)
        (n d K : nat) :
  (0 < n)%nat -> (0 < d)%nat ->
  matrix_shape n d gold -> matrix_shape n d X -> mixture_ok K d mixture ->
  (forall i j, (i < n)%nat -> (j < d)%nat -> entry X i j <> 0 ->
               entry gold i j = entry X i j) ->
  rmse gold (fill_matrix X mixture) ^ 2 * INR (n * d) =
  bigsum n (fun i => bigsum d (fun j =>
    if is_zero (entry X i j)
    then (entry gold i j
          - bigsum K (fun k => entry (fst (estep X mixture)) i k
                               * entry (mu mixture) k j)) ^ 2
    else 0)).
Proof.
  intros Hn Hd Hg HX Hok Hag. destruct Hok as [Hm _].
  destruct (fill_matrix_cells X mixture n d K HX Hm) as [Hs Hc].
  rewrite (rmse_bigsum gold _ n d Hn Hg Hs).
  pose proof (INR_cells_pos n d Hn Hd) as Hpos.
  pose proof (sq_sum_nonneg n d
                (fun i j => entry gold i j
                            - entry (fill_matrix X mixture) i j)) as Hnn.
  cbv beta in Hnn.
  replace (sqrt (bigsum n (fun i => bigsum d (fun j =>
             (entry gold i j - entry (fill_matrix X mixture) i j) ^ 2))
           / INR (n * d)) ^ 2)
    with (bigsum n (fun i => bigsum d (fun j =>
             (entry gold i j - entry (fill_matrix X mixture) i j) ^ 2))
          / INR (n * d)).
  2:{ simpl. rewrite Rmult_1_r. symmetry. apply sqrt_sqrt.
      apply Rle_mult_inv_pos; trivial. }
  unfold Rdiv. rewrite Rmult_assoc, Rinv_l, Rmult_1_r by lra.
  apply bigsum_ext. intros i Hi. apply bigsum_ext. intros j Hj.
  destruct (Hc i j Hi Hj) as [Hnz Hz]. unfold is_zero.
  destruct (Req_dec_T (entry X i j) 0) as [E|E].
  - now rewrite (Hz E).
  - rewrite (Hnz E), (Hag i j Hi Hj E). ring.
Qed.

(** * Initialization *)

Lemma nth_map_repeat {A B : Type} (f : A -> B) (a : A) (b : B) (K k : nat) :
  (k < K)%nat -> nth k (map f (repeat a K)) b = f a.
Proof.
  revert k. induction K as [|K IH]; intros [|k] Hk; simpl; try lia; trivial.
  apply IH. lia.
Qed.

Lemma sq_dev_mean_bigsum (X : matrix) (m : vec) (n d : nat) :
  (0 < n)%nat -> matrix_shape n d X -> length m = d ->
  sq_dev_mean X m =
  bigsum n (fun i => bigsum d (fun j => (entry X i j - nth j m 0) ^ 2))
  / INR (n * d).
Proof.
  intros Hn HX Hm. unfold sq_dev_mean, Rsum2, nrows.
  rewrite (ncols_shape X n d HX Hn). destruct HX as [HXl HXr]. rewrite HXl.
  f_equal. rewrite map_map. rewrite (Rsum_map_bigsum _ X []), HXl.
  apply bigsum_ext. intros i Hi.
  apply sq_diff_row; trivial. apply Forall_nth_length; trivial. lia.
Qed.

Lemma init_some (choice : nat -> nat -> nat -> list nat) (X : matrix)
      (K seed : nat) :
  (K <= length X)%nat ->
  init choice X K seed =
  Some (mkGaussianMixture
          (map (fun r => nth r X []) (choice seed (length X) K))
          (map (fun j => sq_dev_mean X
                           (nth j (map (fun r => nth r X [])
                                       (choice seed (length X) K)) []))
               (seq 0 K))
          (map (fun one => one / INR K) (repeat 1 K)),
        map (map (fun one => one / INR K)) (repeat (repeat 1 K) (length X))).
Proof.
  intros H. unfold init, nrows.
  destruct (Nat.leb_spec K (length X)); [reflexivity | lia].
Qed.

Lemma Rsum_uniform (K : nat) :
  (0 < K)%nat -> Rsum (map (fun one => one / INR K) (repeat 1 K)) = 1.
Proof.
  intros HK. rewrite (Rsum_map_bigsum _ _ 1), repeat_length.
  rewrite (bigsum_ext _ _ (fun _ => 1 / INR K)).
  - rewrite bigsum_const. field. apply not_0_INR. lia.
  - intros k Hk. now rewrite nth_repeat.
Qed.

Lemma init_mu_shape (sel : list nat) (X : matrix) (n d K : nat) :
  matrix_shape n d X -> length sel = K ->
  Forall (fun r => (r < n)%nat) sel ->
  matrix_shape K d (map (fun r => nth r X []) sel).
Proof.
  intros [HXl HXr] Hl Hsel. split; [now rewrite length_map|].
  apply Forall_map. eapply Forall_impl; [|exact Hsel].
  intros r Hr. cbv beta in *. apply Forall_nth_length; trivial. lia.
Qed.

Lemma init_uniform_start (choice : nat -> nat -> nat -> list nat)
        (X : matrix) (K seed n d : nat) :
  choice_ok choice -> (0 < K)%nat -> (K <= n)%nat -> matrix_shape n d X ->
  exists mixture post,
    init choice X K seed = Some (mixture, post) /\
    mixture_shape K d mixture /\
    mu mixture = map (fun r => nth r X []) (choice seed n K) /\
    NoDup (choice seed n K) /\
    Forall (fun r => (r < n)%nat) (choice seed n K) /\
    Rsum (p mixture) = 1 /\
    (forall k, (k < K)%nat -> nth k (p mixture) 0 = 1 / INR K) /\
    (forall k, (k < K)%nat -> 0 <= nth k (var mixture) 0) /\
    matrix_shape n K post /\
    (forall i k, (i < n)%nat -> (k < K)%nat -> entry post i k = 1 / INR K) /\
    Forall (fun r => Rsum r = 1) post.
Proof.
  intros Hch HK HKn HX. pose proof HX as [HXl HXr].
  destruct (Hch seed n K HKn) as [Hlen [Hlt Hnd]].
  rewrite init_some by lia. rewrite HXl.
  pose proof (init_mu_shape _ X n d K HX Hlen Hlt) as Hmu.
  eexists. eexists. split; [reflexivity|].
  unfold mixture_shape. cbn [mu var p].
  split; [|split; [reflexivity|split; [exact Hnd|split; [exact Hlt|]]]].
  { split; [exact Hmu|]. split.
    - now rewrite length_map, length_seq.
    - now rewrite length_map, repeat_length. }
  split; [now apply Rsum_uniform|].
  split.
  { intros k Hk.
    now rewrite (nth_map_repeat (fun one => one / INR K) 1 0 K k Hk). }
  split.
  { intros k Hk.
    rewrite (nth_indep _ 0 ((fun j => sq_dev_mean X
               (nth j (map (fun r => nth r X []) (choice seed n K)) [])) 0%nat))
      by (now rewrite length_map, length_seq).
    rewrite (map_nth (fun j => sq_dev_mean X
               (nth j (map (fun r => nth r X []) (choice seed n K)) []))).
    rewrite seq_nth by trivial. cbn [Nat.add].
    rewrite (sq_dev_mean_bigsum X _ n d); trivial; try lia.
    - unfold Rdiv. apply Rmult_le_pos.
      + apply (sq_sum_nonneg n d (fun i j => entry X i j - nth j _ 0)).
      + destruct (Nat.eq_dec (n * d) 0) as [E|E].
        * rewrite E. simpl. rewrite Rinv_0. lra.
        * apply Rlt_le, Rinv_0_lt_compat, lt_0_INR. lia.
    - destruct Hmu as [Hl Hr]. apply Forall_nth_length; trivial. lia. }
  split.
  { split.
    - now rewrite length_map, repeat_length.
    - apply Forall_map. apply Forall_forall. intros r Hr.
      apply repeat_spec in Hr. subst r.
      now rewrite length_map, repeat_length. }
  split.
  { intros i k Hi Hk. unfold entry.
    rewrite (nth_map_repeat _ _ [] n i Hi).
    now rewrite (nth_map_repeat (fun one => one / INR K) 1 0 K k Hk). }
  apply Forall_map. apply Forall_forall. intros r Hr.
  apply repeat_spec in Hr. subst r. now apply Rsum_uniform.
Qed.

(** X18: for [1 <= K <= n], [init] returns a mixture of shape [(K, d)]
    whose means are rows of [X] taken at [K] different positions, whose
    weights are all [1/K] and sum to one and whose variances are not
    negative, together with an [n] by [K] array of responsibilities all
    equal to [1/K], whose rows sum to one. *)
Theorem init_returns_uniform_start (choice : nat -> nat -> nat -> list nat)
        (X : matrix) (K seed n d : nat) :
  choice_ok choice -> (0 < K)%nat -> (K <= n)%nat -> matrix_shape n d X ->
  exists mixture post,
    init choice X K seed = Some (mixture, post) /\
    mixture_shape K d mixture /\
    mu mixture = map (fun r => nth r X []) (choice seed n K) /\
    NoDup (choice seed n K) /\
    Forall (fun r => (r < n)%nat) (choice seed n K) /\
    Rsum (p mixture) = 1 /\
    (forall k, (k < K)%nat -> nth k (p mixture) 0 = 1 / INR K) /\
    (forall k, (k < K)%nat -> 0 <= nth k (var mixture) 0) /\
    matrix_shape n K post /\
    (forall i k, (i < n)%nat -> (k < K)%nat -> entry post i k = 1 / INR K) /\
    Forall (fun r => Rsum r = 1) post.
Proof. apply init_uniform_start. Qed.

Lemma init_variance_cases (choice : nat -> nat -> nat -> list nat)
        (X : matrix) (K seed n d k : nat) (mixture : GaussianMixture)
        (post : matrix) :
  choice_ok choice -> (K <= n)%nat -> (0 < n)%nat -> (0 < d)%nat ->
  matrix_shape n d X -> (k < K)%nat ->
  init choice X K seed = Some (mixture, post) ->
  (nth k (var mixture) 0 = 0 <->
   forall i, (i < n)%nat -> nth i X [] = nth k (mu mixture) []) /\
  ((exists i1 i2, (i1 < n)%nat /\ (i2 < n)%nat /\ nth i1 X [] <> nth i2 X []) ->
   0 < nth k (var mixture) 0).
Proof.
  intros Hch HKn Hn Hd HX Hk Hinit. pose proof HX as [HXl HXr].
  destruct (Hch seed n K HKn) as [Hlen [Hlt Hnd]].
  rewrite init_some in Hinit by lia. rewrite HXl in Hinit.
  inversion Hinit; subst mixture post. clear Hinit. cbn [mu var].
  pose proof (init_mu_shape _ X n d K HX Hlen Hlt) as [Hl Hr].
  set (M := map (fun r => nth r X []) (choice seed n K)) in *.
  assert (HMk : length (nth k M []) = d)
    by (apply Forall_nth_length; trivial; lia).
  assert (Ev : nth k (map (fun j => sq_dev_mean X (nth j M [])) (seq 0 K)) 0
               = bigsum n (fun i => bigsum d (fun j =>
                   (entry X i j - nth j (nth k M []) 0) ^ 2)) / INR (n * d)).
  { rewrite (nth_indep _ 0 ((fun j => sq_dev_mean X (nth j M [])) 0%nat))
      by (now rewrite length_map, length_seq).
    rewrite (map_nth (fun j => sq_dev_mean X (nth j M []))).
    rewrite seq_nth by trivial. cbn [Nat.add].
    now apply (sq_dev_mean_bigsum X _ n d). }
  rewrite Ev.
  pose proof (INR_cells_pos n d Hn Hd) as Hpos.
  pose proof (sq_sum_nonneg n d
                (fun i j => entry X i j - nth j (nth k M []) 0)) as Hnn.
  cbv beta in Hnn.
  assert (Hiff : bigsum n (fun i => bigsum d (fun j =>
                   (entry X i j - nth j (nth k M []) 0) ^ 2)) / INR (n * d) = 0
                 <-> forall i, (i < n)%nat -> nth i X [] = nth k M []).
  { split.
    - intros H i Hi.
      assert (Hz : bigsum n (fun i => bigsum d (fun j =>
                      (entry X i j - nth j (nth k M []) 0) ^ 2)) = 0).
      { apply (Rmult_eq_reg_r (/ INR (n * d))).
        - unfold Rdiv in H. rewrite H. ring.
        - apply Rinv_neq_0_compat. lra. }
      apply (nth_ext _ _ 0 0).
      + rewrite HMk. apply Forall_nth_length; trivial. lia.
      + intros j Hj. rewrite (Forall_nth_length X d) in Hj by (trivial; lia).
        pose proof (sq_sum_zero n d
                      (fun i j => entry X i j - nth j (nth k M []) 0)
                      Hz i j Hi Hj) as Hc.
        cbv beta in Hc. unfold entry in Hc. lra.
    - intros H. rewrite (bigsum_zero n).
      + unfold Rdiv. apply Rmult_0_l.
      + intros i Hi. apply bigsum_zero. intros j _.
        unfold entry. rewrite (H i Hi). ring. }
  split; [exact Hiff|].
  intros [i1 [i2 [H1 [H2 Hne]]]].
  assert (Hge : 0 <= bigsum n (fun i => bigsum d (fun j =>
                   (entry X i j - nth j (nth k M []) 0) ^ 2)) / INR (n * d)).
  { apply Rle_mult_inv_pos; trivial. }
  destruct Hge as [Hgt|Heq]; [exact Hgt|]. exfalso.
  symmetry in Heq. pose proof (proj1 Hiff Heq) as Hall.
  apply Hne. now rewrite (Hall i1 H1), (Hall i2 H2).
Qed.

(** X19: the initial variance of a component is zero exactly when every
    row of [X] equals the row chosen as its mean; when [X] has two
    different rows every initial variance is positive. *)
Theorem init_variance_zero_iff (choice : nat -> nat -> nat -> list nat)
        (X : matrix) (K seed n d k : nat) (mixture : GaussianMixture)
        (post : matrix) :
  choice_ok choice -> (K <= n)%nat -> (0 < n)%nat -> (0 < d)%nat ->
  matrix_shape n d X -> (k < K)%nat ->
  init choice X K seed = Some (mixture, post) ->
  (nth k (var mixture) 0 = 0 <->
   forall i, (i < n)%nat -> nth i X [] = nth k (mu mixture) []) /\
  ((exists i1 i2, (i1 < n)%nat /\ (i2 < n)%nat /\ nth i1 X [] <> nth i2 X []) ->
   0 < nth k (var mixture) 0).
Proof. apply init_variance_cases. Qed.

(** * The driver *)

Lemma init_mixture_ok (choice : nat -> nat -> nat -> list nat) (X : matrix)
      (K seed n d : nat) (mixture : GaussianMixture) (post : matrix) :
  choice_ok choice -> (0 < K)%nat -> (K <= n)%nat -> matrix_shape n d X ->
  (exists i1 i2, (i1 < n)%nat /\ (i2 < n)%nat /\ nth i1 X [] <> nth i2 X []) ->
  init choice X K seed = Some (mixture, post) ->
  mixture_ok K d mixture /\
  mu mixture = map (fun r => nth r X []) (choice seed n K) /\
  Forall (fun r => (r < n)%nat) (choice seed n K).
Proof.
  intros Hch HK HKn HX Hdiff Hinit.
  destruct (init_uniform_start choice X K seed n d Hch HK HKn HX)
    as [m [p0 [E [Hsh [Hmu [_ [Hlt [Hsum [Hp [_ _]]]]]]]]]].
  rewrite Hinit in E. inversion E; subst m p0. clear E.
  assert (Hn : (0 < n)%nat) by lia.
  assert (Hd : (0 < d)%nat).
  { destruct d; [|lia]. exfalso. destruct Hdiff as [i1 [i2 [H1 [H2 Hne]]]].
    destruct HX as [HXl HXr]. apply Hne.
    pose proof (Forall_nth_length X 0 i1 HXr ltac:(lia)) as L1.
    pose proof (Forall_nth_length X 0 i2 HXr ltac:(lia)) as L2.
    destruct (nth i1 X []); [|discriminate].
    destruct (nth i2 X []); [|discriminate]. reflexivity. }
  split; [|split; trivial].
  split; [exact Hsh|]. split; [exact Hsum|]. split.
  - apply Forall_from_nth. intros k Hk.
    destruct Hsh as [_ [_ HpK]]. rewrite HpK in Hk. rewrite (Hp k Hk).
    apply Rle_mult_inv_pos; [lra | apply lt_0_INR; lia].
  - apply Forall_from_nth. intros k Hk.
    destruct Hsh as [_ [HvK _]]. rewrite HvK in Hk.
    now apply (init_variance_cases choice X K seed n d k mixture post).
Qed.




(** X20: in [evaluate] the loop starts from the result of an M-step: for
    a matrix with at least 12 rows, two of them different, the mixture
    that [init] returns and the one handed to [run] are valid, the latter
    with variances at or above 0.25, so that along the loop no cost is
    lower than the one before by more than [n * 12 * 1e-16]. *)
Theorem evaluate_loop_costs (choice : nat -> nat -> nat -> list nat)
        (X : matrix) (n d i : nat) (mixture : GaussianMixture)
        (post0 : matrix) :
  choice_ok choice -> (12 <= n)%nat -> matrix_shape n d X ->
  (exists i1 i2, (i1 < n)%nat /\ (i2 < n)%nat /\ nth i1 X [] <> nth i2 X []) ->
  init choice X 12 1 = Some (mixture, post0) ->
  let mmixture := mstep X (fst (estep X mixture)) mixture
                        default_min_variance in
  mixture_ok 12 d mixture /\
  mixture_ok 12 d mmixture /\ above_floor mmixture /\
  cost_at X mmixture i - INR n * INR 12 * 1e-16 <= cost_at X mmixture (S i).
Proof.
  intros Hch Hn12 HX Hdiff Hinit mmixture.
  assert (Hn : (0 < n)%nat) by lia.
  destruct (init_mixture_ok choice X 12 1 n d mixture post0 Hch
              ltac:(lia) Hn12 HX Hdiff Hinit) as [Hok _].
  destruct (em_step_ok X mixture n d 12 Hn ltac:(lia) HX (proj1 Hok))
    as [Hok' Hfl'].
  fold mmixture in Hok', Hfl'. unfold em_step in Hok', Hfl'.
  split; [exact Hok|]. split; [exact Hok'|]. split; [exact Hfl'|].
  destruct (mixture_at_ok X mmixture n d 12 i Hn HX Hok') as [Hoki Hfli].
  assert (Hfl : above_floor (mixture_at X mmixture i)).
  { destruct i as [|i]; [exact Hfl' | apply Hfli; lia]. }
  unfold cost_at.
  change (mixture_at X mmixture (S i))
    with (em_step X (mixture_at X mmixture i)).
  now apply (em_step_cost_bound X _ n d 12).
Qed.


(** * Plotting *)

Lemma color_lookup (j : nat) :
  (j < 6)%nat ->
  exists cl, nth_error color j = Some cl /\
             skipn j color = cl :: skipn (S j) color.
Proof.
  intros Hj. do 6 (destruct j as [|j]; [eexists; split; reflexivity|]). lia.
Qed.

Lemma color_lookup_none (j : nat) : (6 <= j)%nat -> nth_error color j = None.
Proof. intros Hj. apply nth_error_None. simpl. lia. Qed.

(** The arcs of one point abut: each starts where the one before ends. *)
Lemma plot_arcs_from_some (point pcs : vec) (j : nat) (theta : R) :
  (j + length pcs <= 6)%nat ->
  exists arcs,
    plot_arcs_from point pcs j theta = Some arcs /\
    map (fun a => (arc_theta1 a, arc_theta2 a)) arcs =
      map (fun t => (theta + 360 * Rsum (firstn t pcs),
                     theta + 360 * Rsum (firstn (S t) pcs)))
          (seq 0 (length pcs)) /\
    map arc_edgecolor arcs = firstn (length pcs) (skipn j color) /\
    Forall (fun a => arc_xy a = point) arcs.
Proof.
  revert j theta. induction pcs as [|pc rest IH]; intros j theta Hj.
  - exists []. repeat split; constructor.
  - cbn [length] in Hj. cbn [plot_arcs_from].
    destruct (color_lookup j ltac:(lia)) as [cl [Hcl Hsk]]. rewrite Hcl.
    destruct (IH (S j) (theta + pc * 360) ltac:(lia))
      as [arcs [E [Hth [Hco Hxy]]]].
    rewrite E. eexists. split; [reflexivity|]. split; [|split].
    + cbn [map arc_theta1 arc_theta2 length]. rewrite Hth.
      rewrite <- cons_seq, <- seq_shift. cbn [map]. rewrite map_map.
      f_equal.
      * cbn [firstn Rsum fold_right]. f_equal; ring.
      * apply map_ext. intros t. cbn [firstn Rsum fold_right].
        fold (Rsum (firstn t rest)).
        destruct t; cbn [firstn Rsum fold_right];
          [|fold (Rsum (firstn t rest))]; f_equal; ring.
    + cbn [map arc_edgecolor length firstn]. rewrite Hco, Hsk. reflexivity.
    + constructor; [reflexivity | exact Hxy].
Qed.

Lemma plot_arcs_from_none (point pcs : vec) (j : nat) (theta : R) :
  (j <= 6)%nat -> (6 < j + length pcs)%nat ->
  plot_arcs_from point pcs j theta = None.
Proof.
  revert j theta. induction pcs as [|pc rest IH]; intros j theta Hj Hlen.
  - simpl in Hlen. lia.
  - cbn [length] in Hlen. cbn [plot_arcs_from].
    destruct (Nat.eq_dec j 6) as [->|Hne].
    + reflexivity.
    + destruct (color_lookup j ltac:(lia)) as [cl [Hcl _]]. rewrite Hcl.
      now rewrite (IH (S j) (theta + pc * 360)) by lia.
Qed.

Lemma percent_of_unit_rows (post : matrix) :
  Forall (fun r => Rsum r = 1) post -> percent post = post.
Proof.
  intros H. unfold percent. induction H as [|row t Hrow Ht IH];
    [reflexivity|].
  cbn [map]. rewrite IH, Hrow. f_equal.
  rewrite <- (map_id row) at 2. apply map_ext. intros v. field.
Qed.

Lemma plot_arcs_rows (X pct : matrix) (n K : nat) :
  length X = n -> matrix_shape n K pct -> (K <= 6)%nat ->
  exists all, plot_arcs X pct = Some all /\ length all = n /\
    forall i, (i < n)%nat ->
      plot_arcs_from (nth i X []) (nth i pct []) 0 0 = Some (nth i all []).
Proof.
  revert pct n. induction X as [|point X IH]; intros pct n HX [Hl Hr] HK.
  - simpl in HX. subst n. exists []. repeat split. intros i Hi. lia.
  - destruct pct as [|row pct]; [simpl in *; lia|].
    cbn [plot_arcs]. inversion Hr as [|? ? Hrow Hrest]; subst.
    destruct (plot_arcs_from_some point row 0 0) as [arcs [E _]];
      [simpl; lia|].
    rewrite E.
    destruct (IH pct (length X) eq_refl) as [rest [E' [Hlen Hnth]]];
      [split; [simpl in *; lia | exact Hrest] | exact HK |].
    rewrite E'. exists (arcs :: rest). split; [reflexivity|].
    split; [simpl; lia|].
    intros [|i] Hi; [exact E|]. simpl. apply Hnth. simpl in Hi. lia.
Qed.

(** X22: for at most six components, [plot] draws around every point of
    [X] one arc per component, in the colours [r, b, k, y, m, c] in that
    order; on the responsibilities of the E-step the normalization leaves
    them as they are, arc [j] runs from [360 * sum_(j' < j) post[i,j']] to
    [360 * sum_(j' <= j) post[i,j']], and the last arc ends at 360. *)
Theorem plot_arcs_tile_the_circle (X : matrix) (mixture : GaussianMixture)
        (n d K i : nat) :
  matrix_shape n d X -> mixture_ok K d mixture -> (K <= 6)%nat ->
  (i < n)%nat ->
  let post := fst (estep X mixture) in
  percent post = post /\
  exists all, plot_arcs X (percent post) = Some all /\ length all = n /\
    map (fun a => (arc_theta1 a, arc_theta2 a)) (nth i all []) =
      map (fun t => (0 + 360 * Rsum (firstn t (nth i post [])),
                     0 + 360 * Rsum (firstn (S t) (nth i post []))))
          (seq 0 K) /\
    map arc_edgecolor (nth i all []) = firstn K color /\
    Forall (fun a => arc_xy a = nth i X []) (nth i all []) /\
    360 * Rsum (firstn K (nth i post [])) = 360.
Proof.
  intros HX Hok HK Hi post.
  pose proof (mixture_ok_pos_K K d mixture Hok) as HKpos.
  destruct Hok as [Hm _].
  pose proof (post_shape X mixture n d K HX Hm) as Hpost.
  pose proof (post_rows_sum X mixture d K HKpos Hm) as Hrows.
  fold post in Hpost, Hrows.
  assert (Hpct : percent post = post) by now apply percent_of_unit_rows.
  split; [exact Hpct|]. rewrite Hpct.
  destruct (plot_arcs_rows X post n K (proj1 HX) Hpost HK)
    as [all [E [Hlen Hnth]]].
  exists all. split; [exact E|]. split; [exact Hlen|].
  assert (Hrow : length (nth i post []) = K).
  { destruct Hpost as [Hl Hr]. apply Forall_nth_length; trivial. lia. }
  destruct (plot_arcs_from_some (nth i X []) (nth i post []) 0 0)
    as [arcs [E' [Hth [Hco Hxy]]]]; [simpl; lia|].
  rewrite (Hnth i Hi) in E'. inversion E'; subst arcs.
  rewrite Hrow in Hth, Hco.
  split; [exact Hth|]. split; [exact Hco|]. split; [exact Hxy|].
  rewrite <- Hrow, firstn_all.
  rewrite Forall_forall in Hrows. rewrite (Hrows (nth i post [])); [lra|].
  apply nth_In. destruct Hpost as [Hl _]. lia.
Qed.

(** X23: with more than six components and at least one point, the
    lookup [color[j]] of [plot] raises, and only then. *)
Theorem plot_raises_above_six_components (X pct : matrix) (n d K : nat) :
  (0 < n)%nat -> matrix_shape n d X -> matrix_shape n K pct ->
  (plot_arcs X pct = None <-> (6 < K)%nat).
Proof.
  intros Hn HX Hpct. split.
  - intros Hnone. destruct (Nat.lt_ge_cases 6 K) as [H|H]; trivial.
    destruct (plot_arcs_rows X pct n K (proj1 HX) Hpct H) as [all [E _]].
    rewrite E in Hnone. discriminate.
  - intros HK. destruct HX as [HXl _]. destruct Hpct as [Hl Hr].
    destruct X as [|point X]; [simpl in HXl; lia|].
    destruct pct as [|row pct]; [simpl in Hl; lia|].
    cbn [plot_arcs]. inversion Hr; subst.
    now rewrite (plot_arcs_from_none point row 0 0) by lia.
Qed.

(** ** The further properties at the sample inputs *)

Lemma first_rows_ok : choice_ok first_rows.
Proof.
  intros seed n K HK. unfold first_rows. split; [apply length_seq|].
  split; [|apply seq_NoDup].
  apply Forall_forall. intros r Hr. apply in_seq in Hr. lia.
Qed.

Lemma post_three_nonneg (i k : nat) :
  (i < 3)%nat -> (k < 2)%nat -> 0 <= entry post_three i k.
Proof.
  intros Hi Hk. unfold entry, post_three.
  destruct i as [|[|[|i]]]; try lia;
    destruct k as [|[|k]]; try lia; simpl; lra.
Qed.

Lemma X_three_observed_range (i j : nat) :
  (i < 3)%nat -> (j < 3)%nat -> entry X_three i j <> 0 ->
  0 <= entry X_three i j <= 3.
Proof.
  intros Hi Hj _. unfold entry, X_three.
  destruct i as [|[|[|i]]]; try lia;
    destruct j as [|[|[|j]]]; try lia; simpl; lra.
Qed.

Lemma X_twelve_two_rows :
  exists i1 i2, (i1 < 12)%nat /\ (i2 < 12)%nat /\
                nth i1 X_twelve [] <> nth i2 X_twelve [].
Proof.
  exists 0%nat, 1%nat. repeat split; try lia.
  simpl. intros H. inversion H. lra.
Qed.



Lemma mstep_variance_formula_witness :
  nth 0 (var (mstep X_three post_three mix_three 0.25)) 0 =
  Rmax (wsum_sqdist 3 3 (obs_ind X_three) (entry X_three) (entry post_three)
          (entry (mu (mstep X_three post_three mix_three 0.25))) 0
        / wsum_nobs 3 3 (obs_ind X_three) (entry post_three) 0) 0.25.
Proof.
  apply (mstep_variance_formula X_three post_three mix_three 0.25 3 3 2 0).
  - lia.
  - shape.
  - shape.
  - unfold mix_three; shape.
  - lia.
Defined.

Lemma mstep_returns_valid_mixture_witness :
  mixture_ok 2 3 (mstep X_three post_three mix_three 0.25).
Proof.
  apply (mstep_returns_valid_mixture X_three post_three mix_three 0.25 3 3 2).
  - lia.
  - shape.
  - shape.
  - unfold mix_three; shape.
  - unfold post_three. repeat constructor; simpl; lra.
  - exact post_three_nonneg.
  - lra.
Defined.

Lemma mstep_uses_previous_means_only_witness :
  mstep X_three post_three mix_three 0.25 =
  mstep X_three post_three mix_three_alt 0.25.
Proof.
  apply (mstep_uses_previous_means_only X_three post_three mix_three
           mix_three_alt 0.25); reflexivity.
Defined.

Lemma mstep_means_in_range_witness :
  cells_in 0 3 (mu (mstep X_three post_three mix_three 0.25)).
Proof.
  apply (mstep_means_in_range X_three post_three mix_three 0.25 0 3 3 3 2).
  - lia.
  - shape.
  - shape.
  - unfold mix_three; shape.
  - exact post_three_nonneg.
  - exact X_three_observed_range.
  - unfold cells_in, mix_three. simpl. repeat constructor; lra.
Defined.

Lemma unrated_item_keeps_its_means_witness :
  entry (mu (mixture_at X_unrated mix_gap 3)) 0 1 = entry (mu mix_gap) 0 1.
Proof.
  apply (unrated_item_keeps_its_means X_unrated mix_gap 2 2 2 3 0 1).
  - lia.
  - shape.
  - unfold mix_gap; shape.
  - lia.
  - lia.
  - intros r Hr. unfold entry, X_unrated.
    destruct r as [|[|r]]; simpl; try reflexivity; lia.
Defined.

Lemma run_returns_only_at_first_small_improvement_witness :
  exists N, (0 < N)%nat /\ (N < 2)%nat /\
    improvement_small X_two mix_two N /\
    (forall j, (0 < j)%nat -> (j < N)%nat ->
               ~ improvement_small X_two mix_two j) /\
    (mixture_at X_two mix_two 2,
     fst (estep X_two (mixture_at X_two mix_two 1)),
     cost_at X_two mix_two 1) =
    (mstep X_two (fst (estep X_two (mixture_at X_two mix_two N)))
           (mixture_at X_two mix_two N) default_min_variance,
     fst (estep X_two (mixture_at X_two mix_two N)),
     snd (estep X_two (mixture_at X_two mix_two N))).
Proof.
  apply (run_returns_only_at_first_small_improvement X_two mix_two [] None 2).
  exact (run_stops_second_pass X_two mix_two [] None 0 improvement_small_two).
Defined.


Lemma fill_matrix_complete_witness : fill_matrix X_two mix_two = X_two.
Proof.
  apply (fill_matrix_complete X_two mix_two).
  unfold X_two. repeat constructor; lra.
Defined.

Lemma fill_matrix_in_range_witness :
  cells_in 0 3 (fill_matrix X_three mix_three).
Proof.
  apply (fill_matrix_in_range X_three mix_three 0 3 3 3 2).
  - shape.
  - unfold mix_three; shape.
  - exact X_three_observed_range.
  - unfold cells_in, mix_three. simpl. repeat constructor; lra.
Defined.

Lemma rmse_zero_iff_equal_witness : rmse X_two X_two = 0 <-> X_two = X_two.
Proof.
  apply (rmse_zero_iff_equal X_two X_two 2 1).
  - lia.
  - lia.
  - shape.
  - shape.
Defined.

Lemma rmse_sym_witness : rmse X_two X_two_swapped = rmse X_two_swapped X_two.
Proof.
  apply (rmse_sym X_two X_two_swapped 2 1).
  - shape.
  - shape.
Defined.

Lemma rmse_of_fill_matrix_witness :
  rmse X_three (fill_matrix X_three mix_three) ^ 2 * INR (3 * 3) =
  bigsum 3 (fun i => bigsum 3 (fun j =>
    if is_zero (entry X_three i j)
    then (entry X_three i j
          - bigsum 2 (fun k => entry (fst (estep X_three mix_three)) i k
                               * entry (mu mix_three) k j)) ^ 2
    else 0)).
Proof.
  apply (rmse_of_fill_matrix X_three X_three mix_three 3 3 2).
  - lia.
  - lia.
  - shape.
  - shape.
  - unfold mix_three; shape.
  - reflexivity.
Defined.

Lemma init_returns_uniform_start_witness :
  exists mixture post,
    init first_rows X_three 2 0 = Some (mixture, post) /\
    mixture_shape 2 3 mixture /\ Rsum (p mixture) = 1.
Proof.
  destruct (init_returns_uniform_start first_rows X_three 2 0 3 3)
    as [mixture [post [E [Hs [_ [_ [_ [Hp _]]]]]]]].
  - exact first_rows_ok.
  - lia.
  - lia.
  - shape.
  - exists mixture, post. repeat split; trivial; apply Hs.
Defined.

Lemma init_variance_zero_iff_witness :
  exists mixture post,
    init first_rows X_three 2 0 = Some (mixture, post) /\
    0 < nth 0 (var mixture) 0.
Proof.
  pose proof (init_some first_rows X_three 2 0 ltac:(simpl; lia)) as E.
  eexists. eexists. split; [exact E|].
  apply (init_variance_zero_iff first_rows X_three 2 0 3 3 0 _ _
           first_rows_ok ltac:(lia) ltac:(lia) ltac:(lia)
           ltac:(shape) ltac:(lia) E).
  exists 0%nat, 1%nat. repeat split; try lia.
  simpl. intros H. inversion H. lra.
Defined.

Lemma evaluate_loop_costs_witness :
  exists mixture post0,
    init first_rows X_twelve 12 1 = Some (mixture, post0) /\
    mixture_ok 12 1 (mstep X_twelve (fst (estep X_twelve mixture)) mixture
                           default_min_variance).
Proof.
  pose proof (init_some first_rows X_twelve 12 1 ltac:(simpl; lia)) as E.
  eexists. eexists. split; [exact E|].
  apply (evaluate_loop_costs first_rows X_twelve 12 1 0 _ _
           first_rows_ok ltac:(lia) ltac:(shape) X_twelve_two_rows E).
Defined.


Lemma plot_arcs_tile_the_circle_witness :
  percent (fst (estep X_three mix_three)) = fst (estep X_three mix_three).
Proof.
  apply (plot_arcs_tile_the_circle X_three mix_three 3 3 2 0).
  - shape.
  - unfold mix_three; shape.
  - lia.
  - lia.
Defined.

Lemma plot_raises_above_six_components_witness :
  plot_arcs X_two X_two = None <-> (6 < 1)%nat.
Proof.
  apply (plot_raises_above_six_components X_two X_two 2 1 1).
  - lia.
  - shape.
  - shape.
Defined.
